(** * kt: a client for the Kyoto Tycoon key-value store

    A shallow embedding of [kt/kt.go]: the TSV wire codec ([TSVEncode],
    [DecodeValues] and the three field decoders), the request life cycle
    ([makeRequest], [roundTrip], [doRPC], [doREST]) and the operations built
    on it ([doGetBulkBytes], [GetBulkBytes], [GetBulk], [MatchPrefix]),
    followed by the properties established about them.

    Conventions of the embedding.
    - A Go [string] is a [string]; a [[]byte] that the code never compares
      with [nil] is a [list byte]; [KV.Value] and the values of the bulk
      map, which [doGetBulkBytes] compares with [nil], are [option (list
      byte)] with [None] for the nil slice. The map [GetBulkBytes] is
      handed is a [gomap], which is nil or holds entries: assigning an
      entry of a nil map panics.
    - A run-time panic (index out of range) is the outcome [Panic]; code that
      can panic lives in the [outcome] monad.
    - The transport, the wall clock and the timers are an explicit world:
      see [World] and [Transport] below.
    - Tracing spans (opentracing) only observe a call and are left out. *)

From Stdlib Require Import NArith ZArith Lia DecimalString.
From Stdlib Require Import Strings.Byte Strings.Ascii Strings.String.
From stdpp Require Import base option list gmap strings fin_maps.

(** ** Panics *)

Inductive outcome (A : Type) : Type :=
| Ret (a : A)
| Panic (msg : string).
Arguments Ret {A} a.
Arguments Panic {A} msg.

Definition obind {A B} (m : outcome A) (k : A → outcome B) : outcome B :=
  match m with
  | Ret a => k a
  | Panic msg => Panic msg
  end.

#[global] Instance outcome_ret : MRet outcome := @Ret.
#[global] Instance outcome_bind : MBind outcome := λ A B k m, obind m k.

Definition index_out_of_range : string := "index out of range".

(** [for _, x := range xs { acc = f acc x }] where the body may panic. *)
Fixpoint foldM {A B} (f : B → A → outcome B) (xs : list A) (acc : B)
  : outcome B :=
  match xs with
  | [] => Ret acc
  | x :: xs' => acc' ← f acc x; foldM f xs' acc'
  end.

(** ** Bytes *)

Definition byte_val (b : byte) : N := Byte.to_N b.

(** Conversion of an integer to a Go [byte]: the low eight bits. *)
Definition to_byte (n : N) : byte :=
  match Byte.of_N (n mod 256)%N with
  | Some b => b
  | None => x00
  end.

Definition byte_eqb (a b : byte) : bool := Byte.eqb a b.

Definition TAB : byte := x09.
Definition LF : byte := x0a.
Definition CR : byte := x0d.
Definition PAD : byte := x3d.
Definition PERCENT : byte := x25.
Definition UNDERSCORE : byte := x5f.

(** [[]byte(s)] and [string(b)]. *)
Definition bytes_of_string (s : string) : list byte := list_byte_of_string s.
Definition string_of_bytes (b : list byte) : string := string_of_list_byte b.

(** A possibly nil byte slice; [slice_bytes] is what [range], [len] and
    [copy] see of it. *)
Definition slice := option (list byte).
Definition slice_bytes (s : slice) : list byte :=
  match s with
  | Some l => l
  | None => []
  end.

(** ** encoding/base64, StdEncoding

    Go's standard library, outside the repository: RFC 4648 with the
    standard alphabet and [=] padding, written after [Encoding.Encode],
    [Encoding.EncodedLen] and [Encoding.Decode]. *)

Module base64.
Local Open Scope N_scope.

Definition encodeStd : list byte :=
  bytes_of_string
    "ABCDEFGHIJKLMNOPQRSTUVWXYZabcdefghijklmnopqrstuvwxyz0123456789+/".

(** [enc.encode[i & 0x3F]] *)
Definition enc6 (i : N) : byte :=
  nth (N.to_nat (N.land i 63)) encodeStd x00.

(** The decode map: the sextet of an alphabet character. *)
Definition dec6 (c : byte) : option N :=
  let v := byte_val c in
  if (65 <=? v) && (v <=? 90) then Some (v - 65)
  else if (97 <=? v) && (v <=? 122) then Some (v - 97 + 26)
  else if (48 <=? v) && (v <=? 57) then Some (v - 48 + 52)
  else if v =? 43 then Some 62
  else if v =? 47 then Some 63
  else None.

(** [(n + 2) / 3 * 4] *)
Definition EncodedLen (n : nat) : nat := ((n + 2) / 3 * 4)%nat.

Definition quantum3 (a b c : byte) : list byte :=
  let val := N.lor (N.lor (N.shiftl (byte_val a) 16)
                          (N.shiftl (byte_val b) 8)) (byte_val c) in
  [enc6 (N.shiftr val 18); enc6 (N.shiftr val 12);
   enc6 (N.shiftr val 6); enc6 val].

Definition quantum2 (a b : byte) : list byte :=
  let val := N.lor (N.shiftl (byte_val a) 16) (N.shiftl (byte_val b) 8) in
  [enc6 (N.shiftr val 18); enc6 (N.shiftr val 12);
   enc6 (N.shiftr val 6); PAD].

Definition quantum1 (a : byte) : list byte :=
  let val := N.shiftl (byte_val a) 16 in
  [enc6 (N.shiftr val 18); enc6 (N.shiftr val 12); PAD; PAD].

(** The bytes [Encode] writes for [src]. *)
Fixpoint encoded (src : list byte) : list byte :=
  match src with
  | a :: b :: c :: rest => quantum3 a b c ++ encoded rest
  | [a; b] => quantum2 a b
  | [a] => quantum1 a
  | [] => []
  end.

(** [Decode] reads quanta of four characters; a malformed quantum ends
    the decoding with an error, which the caller in this package drops,
    keeping the bytes decoded before it. *)
Fixpoint decode_quanta (src : list byte) : list byte :=
  match src with
  | c0 :: c1 :: c2 :: c3 :: rest =>
      match dec6 c0, dec6 c1 with
      | Some s0, Some s1 =>
          match dec6 c2 with
          | Some s2 =>
              match dec6 c3 with
              | Some s3 =>
                  let val := N.lor (N.lor (N.lor (N.shiftl s0 18)
                               (N.shiftl s1 12)) (N.shiftl s2 6)) s3 in
                  to_byte (N.shiftr val 16) :: to_byte (N.shiftr val 8)
                    :: to_byte val :: decode_quanta rest
              | None =>
                  if byte_eqb c3 PAD then
                    let val := N.lor (N.lor (N.shiftl s0 18)
                                 (N.shiftl s1 12)) (N.shiftl s2 6) in
                    [to_byte (N.shiftr val 16); to_byte (N.shiftr val 8)]
                  else []
              end
          | None =>
              if byte_eqb c2 PAD && byte_eqb c3 PAD then
                let val := N.lor (N.shiftl s0 18) (N.shiftl s1 12) in
                [to_byte (N.shiftr val 16)]
              else []
          end
      | _, _ => []
      end
  | _ => []
  end.

(** [Decode] skips carriage returns and line feeds. *)
Definition decoded (src : list byte) : list byte :=
  decode_quanta
    (filter (λ c, byte_eqb c CR = false ∧ byte_eqb c LF = false) src).

(** A character [Encode] can write: of the alphabet, or the padding. *)
Definition wire_char (c : byte) : Prop := is_Some (dec6 c) ∨ c = PAD.

End base64.

(** ** Records and the request encoder *)

(** [KV]: an explicit structure rather than a map, because the data is
    ordered. *)
Record KV := mkKV { Key : string; Value : slice }.

Inductive Encoding := IdentityEnc | Base64Enc.

Definition is_binary (c : byte) : bool :=
  (byte_val c <? 32)%N || (126 <? byte_val c)%N.

Fixpoint hasBinary (b : string) : bool :=
  match b with
  | EmptyString => false
  | String a rest =>
      if is_binary (byte_of_ascii a) then true else hasBinary rest
  end.

Fixpoint hasBinarySlice (b : list byte) : bool :=
  match b with
  | [] => false
  | c :: rest => if is_binary c then true else hasBinarySlice rest
  end.

(** [make([]byte, n)] *)
Definition make_bytes (n : nat) : list byte := replicate n x00.

(** [buf[n] = c] *)
Definition store (buf : list byte) (n : nat) (c : byte)
  : outcome (list byte) :=
  if decide (n < length buf) then Ret (<[n:=c]> buf)
  else Panic index_out_of_range.

(** [copy(buf[n:], src)]: copies as many bytes as fit and returns their
    number; the slice expression panics when [n] exceeds the length. *)
Definition copy_at (buf : list byte) (n : nat) (src : list byte)
  : outcome (list byte * nat) :=
  if decide (n ≤ length buf) then
    let k := length src `min` (length buf - n) in
    Ret (take n buf ++ take k src ++ drop (n + k) buf, k)
  else Panic "slice bounds out of range".

(** [base64.StdEncoding.Encode(buf[n:], src)]: writes
    [EncodedLen(len(src))] bytes and panics when they do not fit. *)
Definition Encode_at (buf : list byte) (n : nat) (src : list byte)
  : outcome (list byte) :=
  if decide (n ≤ length buf) then
    let out := base64.encoded src in
    if decide (n + length out ≤ length buf) then
      Ret (take n buf ++ out ++ drop (n + length out) buf)
    else Panic index_out_of_range
  else Panic "slice bounds out of range".

(** First pass of [TSVEncode]: the buffer size and whether any field holds
    a byte outside 0x20-0x7e. *)
Definition scan_step (st : nat * bool) (kv : KV) : nat * bool :=
  let '(bufsize, hasbinary) := st in
  let hasbinary := hasbinary || hasBinary (Key kv) in
  let bufsize := bufsize + base64.EncodedLen (String.length (Key kv)) in
  let bufsize := bufsize + 1 in
  let hasbinary := hasbinary || hasBinarySlice (slice_bytes (Value kv)) in
  let bufsize :=
    bufsize + base64.EncodedLen (length (slice_bytes (Value kv))) in
  let bufsize := bufsize + 1 in
  (bufsize, hasbinary).

(** One field of the second pass. *)
Definition write_field (hasbinary : bool) (buf : list byte) (n : nat)
    (field : list byte) : outcome (list byte * nat) :=
  if hasbinary then
    buf ← Encode_at buf n field;
    Ret (buf, n + base64.EncodedLen (length field))
  else
    '(buf, k) ← copy_at buf n field;
    Ret (buf, n + k).

Definition write_step (hasbinary : bool) (st : list byte * nat) (kv : KV)
  : outcome (list byte * nat) :=
  let '(buf, n) := st in
  '(buf, n) ← write_field hasbinary buf n (bytes_of_string (Key kv));
  buf ← store buf n TAB;
  let n := n + 1 in
  '(buf, n) ← write_field hasbinary buf n (slice_bytes (Value kv));
  buf ← store buf n LF;
  let n := n + 1 in
  Ret (buf, n).

(** Encode the request body in TSV. *)
Definition TSVEncode (values : list KV) : outcome (list byte * Encoding) :=
  let '(bufsize, hasbinary) := fold_left scan_step values (0, false) in
  let buf := make_bytes bufsize in
  '(buf, _) ← foldM (write_step hasbinary) values (buf, 0);
  let enc := if hasbinary then Base64Enc else IdentityEnc in
  Ret (buf, enc).

(** ** Errors *)

(** [Error] is returned by all functions in this package. *)
Record Error := mkError { Message : string; Code : Z }.

(** A non-nil Go [error] value. The three package-level sentinels are
    pointers, compared by identity: each is a constructor of its own,
    distinct from a freshly allocated [&Error{...}] with the same fields.
    [Foreign] is an error of another package (net/http, io). *)
Inductive err :=
| ErrTimeout
| ErrNotFound
| ErrSuccess
| NewError (e : Error)
| Foreign (msg : string).

(** The [*Error] an error value points to, if it is one. *)
Definition as_Error (e : err) : option Error :=
  match e with
  | ErrTimeout => Some (mkError "operation timeout" 0)
  | ErrNotFound => Some (mkError "entry not found aka logical inconsistency" 0)
  | ErrSuccess => Some (mkError "success" 0)
  | NewError e => Some e
  | Foreign _ => None
  end.

(** [IsError] *)
Definition IsError (e : err) : bool :=
  match as_Error e with Some _ => true | None => false end.

(** A Go [error]: [None] is nil. *)
Definition error := option err.

(** ** The response decoder *)

(** [decodefunc] takes a byte slice and decodes the value in place. *)
Definition decodefunc := list byte → outcome (list byte).

(** Don't do anything, this is pure TSV. *)
Definition identityDecode : decodefunc := λ b, Ret b.

(** Base64 decode each of the fields; the decoding error is dropped. *)
Definition base64Decode : decodefunc := λ b, Ret (base64.decoded b).

(** copied from net/url *)
Definition unhex (c : byte) : byte :=
  let v := byte_val c in
  if (48 <=? v)%N && (v <=? 57)%N then to_byte (v - 48)
  else if (97 <=? v)%N && (v <=? 102)%N then to_byte (v - 97 + 10)
  else if (65 <=? v)%N && (v <=? 70)%N then to_byte (v - 65 + 10)
  else x00.

(** Decode the % escaped URL format. The source writes the result over
    its input at an index that never passes the read index, so each read
    sees an original byte; [b[i+1]] and [b[i+2]] are read unchecked. *)
Fixpoint urlDecode (b : list byte) : outcome (list byte) :=
  match b with
  | [] => Ret []
  | c :: rest =>
      if byte_eqb c PERCENT then
        match rest with
        | h1 :: h2 :: rest' =>
            let hi := to_byte (N.shiftl (byte_val (unhex h1)) 4) in
            let r := to_byte (N.lor (byte_val hi) (byte_val (unhex h2))) in
            res ← urlDecode rest';
            Ret (r :: res)
        | _ => Panic index_out_of_range
        end
      else
        res ← urlDecode rest;
        Ret (c :: res)
  end.

(** [bytes.Buffer.ReadBytes(delim)]: the bytes up to and including the
    first [delim], whether the end of the buffer came first ([io.EOF]),
    and the unread rest. *)
Fixpoint ReadBytes (delim : byte) (b : list byte)
  : list byte * bool * list byte :=
  match b with
  | [] => ([], true, [])
  | c :: rest =>
      if byte_eqb c delim then ([c], false, rest)
      else let '(line, eof, rest') := ReadBytes delim rest in
           (c :: line, eof, rest')
  end.

(** [s[i]] on a string *)
Definition string_at (s : string) (i : Z) : outcome byte :=
  if decide (0 ≤ i < Z.of_nat (String.length s))%Z then
    match String.get (Z.to_nat i) s with
    | Some a => Ret (byte_of_ascii a)
    | None => Panic index_out_of_range
    end
  else Panic index_out_of_range.

(** [contenttype[len(contenttype)-1]] *)
Definition final_char (contenttype : string) : outcome byte :=
  string_at contenttype (Z.of_nat (String.length contenttype) - 1).

(** [value[len(value)-1] == c], for a non-empty [value] *)
Definition ends_with (value : list byte) (c : byte) : bool :=
  match last value with
  | Some d => byte_eqb d c
  | None => false
  end.

Definition out_of_fuel : string := "out of fuel".

(** The [for] loop of [DecodeValues]. Every iteration that goes round
    again has read a tab: [fuel] bounds the iterations and
    [S (length b)] is always enough. *)
Fixpoint decodeLoop (decodef : decodefunc) (fuel : nat) (b : list byte)
    (result : list KV) : outcome (list KV) :=
  match fuel with
  | O => Panic out_of_fuel
  | S fuel' =>
      let '(key, eof, b) := ReadBytes TAB b in
      if eof then Ret result
      else
        key ← decodef (take (length key - 1) key);
        let '(value, eof, b) := ReadBytes LF b in
        result ←
          (if decide (0 < length value) then
             let fieldlen :=
               if ends_with value LF then length value - 1
               else length value in
             value ← decodef (take fieldlen value);
             Ret (result ++ [mkKV (string_of_bytes key) (Some value)])
           else Ret result);
        if eof then Ret result
        else decodeLoop decodef fuel' b result
  end.

(** The [switch] on the final character of the content type: [B], [U] or
    [s] (the last character of tab-separated-values) tell which field
    encoding is used. *)
Definition select_decodef (c : byte) : option decodefunc :=
  if byte_eqb c "B" then Some base64Decode
  else if byte_eqb c "U" then Some urlDecode
  else if byte_eqb c "s" then Some identityDecode
  else None.

(** [DecodeValues] takes a response from a KT RPC call and decodes it into
    a list of key value pairs. *)
Definition DecodeValues (buf : list byte) (contenttype : string)
  : outcome (list KV * error) :=
  if decide (length buf = 0) then Ret ([], None)
  else
    c ← final_char contenttype;
    match select_decodef c with
    | None =>
        Ret ([], Some (NewError
          (mkError ("responded with unknown Content-Type: " ++ contenttype)
             0)))
    | Some decodef =>
        result ← decodeLoop decodef (S (length buf)) buf [];
        Ret (result, None)
    end.

(** ** Error extraction *)

Definition findRec (kvs : list KV) (key : string) : KV :=
  match List.find (λ kv, String.eqb (Key kv) key) kvs with
  | Some kv => kv
  | None => mkKV "" None
  end.

Definition makeError (m : list KV) : err :=
  let kv := findRec m "ERROR" in
  if String.eqb (Key kv) "" then NewError (mkError "generic error" 0)
  else NewError (mkError (string_of_bytes (slice_bytes (Value kv))) 0).

(** ** The connection and its world *)

Definition uint64_modulus : Z := 2 ^ 64.

(** URLs and requests, as far as this package fills them in. *)
Record URL := mkURL {
  Scheme : string; Host : string; Path : string; Opaque : string }.

Definition Header := list (string * string).

Record Request := mkRequest {
  Method : string; ReqURL : URL; ReqHeader : Header; ReqBody : list byte }.

(** A response whose headers have arrived. Reading its body to the end
    ([ioutil.ReadAll]) takes [BodyTime] and yields [Body] and [BodyErr]. *)
Record Response := mkResponse {
  StatusCode : Z;
  ContentType : string;
  Body : list byte;
  BodyErr : error;
  BodyTime : Z }.

(** What one [transport.RoundTrip] does: it takes [Elapsed] and either
    yields a response or fails with an error. *)
Record Attempt := mkAttempt { Elapsed : Z; Reply : Response + err }.

(** The remote end and the network: the answer to the [n]-th attempt made
    on the connection, for each request. *)
Definition Transport := nat → Request → Attempt.

(** [Conn] represents a connection to a Kyoto Tycoon endpoint. *)
Record Conn := mkConn {
  retryCount : Z;
  scheme : string;
  timeout : Z;
  host : string }.

(** The connection, the time and the number of attempts the transport has
    served. *)
Record World := mkWorld { conn : Conn; clock : Z; served : nat }.

(** [time.AfterFunc(d, f)]: the timer fires once the clock reaches its
    deadline. *)
Record Timer := mkTimer { deadline : Z }.

(** Code that acts on the world and may panic. *)
Definition io (A : Type) : Type := World → World * outcome A.

#[global] Instance io_ret : MRet io := λ A a w, (w, Ret a).
#[global] Instance io_bind : MBind io := λ A B k m w,
  match m w with
  | (w', Ret a) => k a w'
  | (w', Panic msg) => (w', Panic msg)
  end.

Definition lift {A} (o : outcome A) : io A := λ w, (w, o).

(** [RetryCount] is the number of retries performed due to the remote end
    closing idle connections. *)
Definition RetryCount (c : Conn) : Z := retryCount c.

Definition identityheaders : Header :=
  [("Content-Type", "text/tab-separated-values")].
Definition base64headers : Header :=
  [("Content-Type", "text/tab-separated-values; colenc=B")].
Definition emptyHeader : Header := [].

(** [headers := identityheaders; if enc == Base64Enc { headers =
    base64headers }] *)
Definition headers_for (enc : Encoding) : Header :=
  match enc with
  | Base64Enc => base64headers
  | IdentityEnc => identityheaders
  end.

Definition zeroslice : list byte := bytes_of_string "0".

(** [strconv.FormatInt(n, 10)] *)
Definition FormatInt (n : Z) : string :=
  DecimalString.NilZero.string_of_int (Z.to_int n).

Section Connection.

Variable transport : Transport.
(** [url.QueryEscape], of Go's standard library. *)
Variable QueryEscape : string → string.

(** [t.Stop()]: true when the call stops the timer, false when the timer
    has already fired. *)
Definition Stop (t : Timer) : io bool :=
  λ w, (w, Ret (bool_decide (clock w < deadline t)%Z)).

(** [c.transport.RoundTrip(req)] *)
Definition RoundTrip (req : Request) : io (Response + err) :=
  λ w, let a := transport (served w) req in
       (mkWorld (conn w) (clock w + Elapsed a) (S (served w)),
        Ret (Reply a)).

(** [atomic.AddUint64(&c.retryCount, 1)] *)
Definition AddRetryCount : io unit :=
  λ w, let c := conn w in
       (mkWorld (mkConn ((retryCount c + 1) mod uint64_modulus)
                        (scheme c) (timeout c) (host c))
                (clock w) (served w),
        Ret tt).

(** [ioutil.ReadAll(resp.Body)] *)
Definition ReadAll (resp : Response) : io (list byte * error) :=
  λ w, (mkWorld (conn w) (clock w + BodyTime resp) (served w),
        Ret (Body resp, BodyErr resp)).

Definition makeRequest (method : string) (url : URL) (headers : Header)
    (body : list byte) : io (Request * Timer) :=
  λ w, (w, Ret (mkRequest method url headers body,
                mkTimer (clock w + timeout (conn w)))).

(** The result is [(resp, t, nil)] or [(nil, nil, err)]. *)
Definition roundTrip (method : string) (url : URL) (headers : Header)
    (body : list byte) : io (Response * Timer + err) :=
  '(req, t) ← makeRequest method url headers body;
  r ← RoundTrip req;
  '(r, t) ←
    match r with
    | inr _ =>
        (* retry eagerly *)
        _ ← Stop t;
        '(req, t) ← makeRequest method url headers body;
        r ← RoundTrip req;
        _ ← AddRetryCount;
        mret (r, t)
    | inl _ => mret (r, t)
    end;
  match r with
  | inr e =>
      stopped ← Stop t;
      mret (inr (if stopped : bool then e else ErrTimeout))
  | inl resp => mret (inl (resp, t))
  end.

(** Do an RPC call against the KT endpoint. *)
Definition doRPC (path : string) (values : list KV)
  : io (Z * list KV * error) :=
  c ← (λ w, (w, Ret (conn w)));
  let url := mkURL (scheme c) (host c) path "" in
  '(body, enc) ← lift (TSVEncode values);
  let headers := headers_for enc in
  r ← roundTrip "POST" url headers body;
  match r with
  | inr e => mret (0%Z, [], Some e)
  | inl (resp, t) =>
      '(resultBody, e) ← ReadAll resp;
      stopped ← Stop t;
      if negb stopped then mret (0%Z, [], Some ErrTimeout)
      else
        match e with
        | Some e => mret (0%Z, [], Some e)
        | None =>
            '(m, e) ← lift (DecodeValues resultBody (ContentType resp));
            match e with
            | Some e => mret (0%Z, [], Some e)
            | None => mret (StatusCode resp, m, None)
            end
        end
  end.

(** Encode the key for use in a RESTful url. *)
Definition urlenc (s : string) : string := "/" ++ QueryEscape s.

Definition doREST (op : string) (key : string) (val : list byte)
  : io (Z * list byte * error) :=
  c ← (λ w, (w, Ret (conn w)));
  let newkey := urlenc key in
  let url := mkURL (scheme c) (host c) "" newkey in
  r ← roundTrip op url emptyHeader val;
  match r with
  | inr e => mret (0%Z, [], Some e)
  | inl (resp, t) =>
      '(resultBody, e) ← ReadAll resp;
      stopped ← Stop t;
      let e := if negb stopped then Some ErrTimeout else e in
      mret (StatusCode resp, resultBody, e)
  end.

End Connection.

(** ** Bulk get and prefix match *)

(** [s[1:]] for a non-empty string *)
Definition string_tail (s : string) : string :=
  match s with
  | EmptyString => EmptyString
  | String _ rest => rest
  end.

(** A Go map with string keys, as a caller hands it over: the nil map, or
    a map made with [make] or a literal. A nil map reads like an empty
    one ([range], [len], lookup and [delete] all work on it); assigning an
    entry of it panics. *)
Inductive gomap (V : Type) : Type :=
| nil_map
| make_map (m : gmap string V).
Arguments nil_map {V}.
Arguments make_map {V} m.

(** What [range] and lookup see of a map. *)
Definition entries {V} (keys : gomap V) : gmap string V :=
  match keys with
  | nil_map => ∅
  | make_map m => m
  end.

(** [for k := range keys { keys[k] = f(keys[k]) }]: only entries that are
    there are assigned, so a nil map is left alone. *)
#[global] Instance gomap_fmap : FMap gomap := λ A B f keys,
  match keys with
  | nil_map => nil_map
  | make_map m => make_map (f <$> m)
  end.

Definition nil_map_assignment : string := "assignment to entry in nil map".

(** [keys[k] = v] *)
Definition map_assign {V} (keys : gomap V) (k : string) (v : V)
  : outcome (gomap V) :=
  match keys with
  | nil_map => Panic nil_map_assignment
  | make_map m => Ret (make_map (<[k:=v]> m))
  end.

(** [for k, v := range keys { if v == nil { delete(keys, k) } }] *)
Definition drop_nil (keys : gomap slice) : gomap slice :=
  match keys with
  | nil_map => nil_map
  | make_map m => make_map (filter (λ kv : string * slice, is_Some kv.2) m)
  end.

(** The body of [for _, kv := range m] in [doGetBulkBytes]. *)
Definition fill_step (keys : gomap slice) (kv : KV)
  : outcome (gomap slice) :=
  c ← string_at (Key kv) 0;
  if negb (byte_eqb c UNDERSCORE) then Ret keys
  else map_assign keys (string_tail (Key kv)) (Value kv).

(** The body of [for _, kv := range m] in [MatchPrefix]. *)
Definition match_step (res : list string) (kv : KV) : outcome (list string) :=
  c ← string_at (Key kv) 0;
  if byte_eqb c UNDERSCORE then Ret (res ++ [string_tail (Key kv)])
  else Ret res.

(** [keystransmit] of [doGetBulkBytes]: a record for each key, with a [_]
    as a prefix and a placeholder value. Go ranges over the map in an
    order it does not specify; [map_to_list] stands for that order. *)
Definition bulk_keys (keys : gomap slice) : list KV :=
  (λ kv : string * slice, mkKV ("_" ++ kv.1) (Some zeroslice))
    <$> map_to_list (entries keys).

(** [keystransmit] of [MatchPrefix] *)
Definition prefix_query (key : string) (maxrecords : Z) : list KV :=
  [mkKV "prefix" (Some (bytes_of_string key));
   mkKV "max" (Some (bytes_of_string (FormatInt maxrecords)))].

Section Operations.

Variable transport : Transport.

(** [doGetBulkBytes] retrieves the keys in the map; a key that was not
    found in the database is removed from the map. The map is the
    caller's: the function returns it as it leaves it, also on an error
    return. *)
Definition doGetBulkBytes (keys : gomap slice)
  : io (gomap slice * error) :=
  let keystransmit := bulk_keys keys in
  let keys : gomap slice := (λ _, None) <$> keys in
  '(code, m, e) ← doRPC transport "/rpc/get_bulk" keystransmit;
  match e with
  | Some e => mret (keys, Some e)
  | None =>
      if negb (code =? 200)%Z then mret (keys, Some (makeError m))
      else
        keys ← lift (foldM fill_step m keys);
        let keys := drop_nil keys in
        mret (keys, None)
  end.

Definition GetBulkBytes (keys : gomap slice)
  : io (gomap slice * error) :=
  doGetBulkBytes keys.

(** [GetBulk] retrieves the keys in the map; the results are filled in
    on return. The map it hands to [doGetBulkBytes] is its own, made with
    [make]; its argument is only ranged over, and assigned or deleted at
    keys it holds, so that a nil argument behaves as an empty one. *)
Definition GetBulk (keysAndVals : gmap string string)
  : io (gmap string string * error) :=
  let m : gomap slice :=
    make_map ((λ _, Some zeroslice) <$> keysAndVals) in
  '(m, e) ← doGetBulkBytes m;
  match e with
  | Some e => mret (keysAndVals, Some e)
  | None =>
      mret (map_imap (λ k _,
              (λ b, string_of_bytes (slice_bytes b)) <$> entries m !! k)
              keysAndVals, None)
  end.

(** [MatchPrefix] performs the match_prefix operation against the
    server. The error may be [ErrSuccess] in the case that no records
    were found. A nil result is [None]. *)
Definition MatchPrefix (key : string) (maxrecords : Z)
  : io (option (list string) * error) :=
  let keystransmit := prefix_query key maxrecords in
  '(code, m, e) ← doRPC transport "/rpc/match_prefix" keystransmit;
  match e with
  | Some e => mret (None, Some e)
  | None =>
      if negb (code =? 200)%Z then mret (None, Some (makeError m))
      else
        res ← lift (foldM match_step m []);
        if decide (length res = 0) then mret (None, Some ErrSuccess)
        else mret (Some res, None)
  end.

End Operations.

(** ** The wire format, as the specification words it

    Each record is written as [key TAB value LF]; with base64 every key
    and every value is encoded before it is written. *)

Definition field_wire (hasbinary : bool) (field : list byte) : list byte :=
  if hasbinary then base64.encoded field else field.

Definition record_wire (hasbinary : bool) (kv : KV) : list byte :=
  field_wire hasbinary (bytes_of_string (Key kv)) ++ [TAB]
    ++ field_wire hasbinary (slice_bytes (Value kv)) ++ [LF].

Definition records_wire (hasbinary : bool) (values : list KV) : list byte :=
  concat (map (record_wire hasbinary) values).

(** Some byte of some key or value lies outside 0x20-0x7e. *)
Definition any_binary (values : list KV) : bool :=
  existsb (λ kv, hasBinary (Key kv)
                 || hasBinarySlice (slice_bytes (Value kv))) values.

(** The bytes the first pass of [TSVEncode] reserves for a record. *)
Definition reserved (kv : KV) : nat :=
  base64.EncodedLen (String.length (Key kv)) + 1
    + base64.EncodedLen (length (slice_bytes (Value kv))) + 1.

Definition reserved_total (values : list KV) : nat :=
  sum_list (reserved <$> values).

(** The length the specification gives the buffer under each encoding. *)
Definition exact_size (enc : Encoding) (values : list KV) : nat :=
  match enc with
  | Base64Enc => reserved_total values
  | IdentityEnc =>
      sum_list ((λ kv, String.length (Key kv) + 1
                       + length (slice_bytes (Value kv)) + 1) <$> values)
  end.

(** The final character of a content type that names an encoding. *)
Definition marker (enc : Encoding) : byte :=
  match enc with
  | IdentityEnc => "s"
  | Base64Enc => "B"
  end.

(** A record as [DecodeValues] builds it: its value is never nil. *)
Definition decoded_record (kv : KV) : KV :=
  mkKV (Key kv) (Some (slice_bytes (Value kv))).

(** Printable ASCII: a byte in 0x20-0x7e. *)
Definition printable (c : byte) : Prop := (32 ≤ byte_val c ≤ 126)%N.

#[global] Instance printable_dec (c : byte) : Decision (printable c).
Proof. unfold printable. apply _. Defined.

Definition printable_record (kv : KV) : Prop :=
  Forall printable (bytes_of_string (Key kv))
  ∧ Forall printable (slice_bytes (Value kv)).

(** Every byte of every key and value is printable ASCII. *)
Definition all_printable (values : list KV) : Prop :=
  Forall printable_record values.

#[global] Instance all_printable_dec (values : list KV) :
  Decision (all_printable values).
Proof. unfold all_printable, printable_record. apply _. Defined.

(** The encoding the specification prescribes for a record list. *)
Definition encoding_of (values : list KV) : Encoding :=
  if decide (all_printable values) then IdentityEnc else Base64Enc.

(** The records of a non-empty buffer under a field decoder. *)
Definition decode_fields (decodef : decodefunc) (buf : list byte)
  : outcome (list KV * error) :=
  result ← decodeLoop decodef (S (length buf)) buf [];
  Ret (result, None).

(** The [DecodeError] for a content type that names no encoding. *)
Definition unknown_content_type (contenttype : string) : err :=
  NewError
    (mkError ("responded with unknown Content-Type: " ++ contenttype) 0).

(** A field decoder undoes the encoding [hasbinary] of every field of the
    records, whose wire forms hold no delimiter. *)
Definition decodes (decodef : decodefunc) (hasbinary : bool)
    (values : list KV) : Prop :=
  Forall (λ kv,
    let K := field_wire hasbinary (bytes_of_string (Key kv)) in
    let V := field_wire hasbinary (slice_bytes (Value kv)) in
    Forall (λ c, c ≠ TAB) K ∧ Forall (λ c, c ≠ LF) V
    ∧ decodef K = Ret (bytes_of_string (Key kv))
    ∧ decodef V = Ret (slice_bytes (Value kv))) values.

(** ** The attempt that decides a call

    [roundTrip] tries once and, when that fails, once more with a fresh
    timer. The last attempt it makes, the timer then running and the time
    at which the attempt's outcome is known: *)
Record Final := mkFinal {
  final_attempt : Attempt;
  final_timer : Timer;
  final_clock : Z }.

Definition final (transport : Transport) (w : World) (req : Request)
  : Final :=
  let first := transport (served w) req in
  match Reply first with
  | inl _ =>
      mkFinal first (mkTimer (clock w + timeout (conn w)))
        (clock w + Elapsed first)
  | inr _ =>
      let second := transport (S (served w)) req in
      let start := (clock w + Elapsed first)%Z in
      mkFinal second (mkTimer (start + timeout (conn w)))
        (start + Elapsed second)
  end.

(** The timer has fired by the time [now]. *)
Definition fired (t : Timer) (now : Z) : Prop := (deadline t ≤ now)%Z.

(** The requests [doRPC] and [doREST] send. *)
Definition rpc_request (c : Conn) (path : string) (body : list byte)
    (enc : Encoding) : Request :=
  mkRequest "POST" (mkURL (scheme c) (host c) path "") (headers_for enc) body.

Definition rest_request (QueryEscape : string → string) (c : Conn)
    (op key : string) (val : list byte) : Request :=
  mkRequest op (mkURL (scheme c) (host c) "" ("/" ++ QueryEscape key))
    emptyHeader val.

(** The connection after [atomic.AddUint64(&c.retryCount, 1)]. *)
Definition retried (c : Conn) : Conn :=
  mkConn ((retryCount c + 1) mod uint64_modulus) (scheme c) (timeout c)
    (host c).

(** ** Sample worlds *)

Definition sample_conn : Conn := mkConn 7 "http" 100 "localhost:1978".
Definition sample_world : World := mkWorld sample_conn 0 0.

Definition tsv_response (code : Z) (body : list byte) (time : Z) : Response :=
  mkResponse code "text/tab-separated-values" body None time.

(** The first attempt meets a closed connection, the retry goes through. *)
Definition stale_then_ok : Transport :=
  λ n _, match n with
         | O => mkAttempt 5 (inr (Foreign "EOF"))
         | S _ => mkAttempt 5 (inl (tsv_response 200 [] 1))
         end.

(** Every attempt fails, after the timeout has passed. *)
Definition always_late : Transport :=
  λ _ _, mkAttempt 150 (inr (Foreign "net/http: request canceled")).

(** The headers arrive at once, the body after the timeout. *)
Definition slow_body : Transport :=
  λ _ _, mkAttempt 5 (inl (tsv_response 200 [x61; x09; x62; x0a] 200)).

(** A server that answers every request with the same body. *)
Definition answers (body : list byte) : Transport :=
  λ _ _, mkAttempt 5 (inl (tsv_response 200 body 1)).


(** Response bodies: [_b TAB x LF], [_a TAB 1 LF _c TAB 3 LF] and
    [TAB v LF], whose only record has an empty key. *)
Definition echo_b : list byte := [x5f; x62; x09; x78; x0a].
Definition echo_a_c : list byte :=
  [x5f; x61; x09; x31; x0a; x5f; x63; x09; x33; x0a].
Definition empty_key_body : list byte := [x09; x76; x0a].

(** ** Echoed keys *)

(** The key starts with [_]. *)
Definition underscored (s : string) : bool :=
  match s with
  | String a _ => byte_eqb (byte_of_ascii a) UNDERSCORE
  | EmptyString => false
  end.

(** The value the response binds to [k]: that of the last record whose
    key is [_k], if there is one. *)
Definition echoed (m : list KV) (k : string) : option slice :=
  Value <$> last (filter (λ kv, Key kv = String "_" k) m).

(** The keys a response to [MatchPrefix] lists. *)
Definition matched (m : list KV) : list string :=
  (λ kv, string_tail (Key kv)) <$> filter (λ kv, underscored (Key kv)) m.

(** C5 as it is worded, for [doGetBulkBytes] on a map made of the entries
    [keys]: after a response with status 200 the map holds exactly the
    requested keys the response echoes. *)
Definition bulk_get_claim (transport : Transport)
    (keys : gmap string slice) (w : World) : Prop :=
  ∀ w' m,
    doRPC transport "/rpc/get_bulk" (bulk_keys (make_map keys)) w
    = (w', Ret (200%Z, m, None)) →
    ∃ result,
      doGetBulkBytes transport (make_map keys) w
      = (w', Ret (make_map result, None))
      ∧ ∀ k, result !! k
             = if decide (k ∈ dom keys) then echoed m k else None.

(** ** The single-key operations, over the RESTful interface *)

Section SingleKey.

Variable transport : Transport.
Variable QueryEscape : string → string.

(** [doGet] performs the http request to retrieve the value associated
    with [key]. The value returned with an error is nil. *)
Definition doGet (key : string) : io (slice * error) :=
  '(code, body, e) ← doREST transport QueryEscape "GET" key [];
  match e with
  | Some e => mret (None, Some e)
  | None =>
      if (code =? 200)%Z then mret (Some body, None)
      else if (code =? 404)%Z then mret (None, Some ErrNotFound)
      else mret (None, Some (NewError (mkError (string_of_bytes body) code)))
  end.

(** [Get] retrieves the data stored at [key]. *)
Definition Get (key : string) : io (string * error) :=
  '(s, e) ← doGet key;
  match e with
  | Some e => mret (EmptyString, Some e)
  | None => mret (string_of_bytes (slice_bytes s), None)
  end.

(** [GetBytes] retrieves the data stored at [key] as a byte slice. *)
Definition GetBytes (key : string) : io (slice * error) := doGet key.

(** [set] stores the data at [key]. *)
Definition set (key : string) (value : list byte) : io error :=
  '(code, body, e) ← doREST transport QueryEscape "PUT" key value;
  match e with
  | Some e => mret (Some e)
  | None =>
      if negb (code =? 201)%Z
      then mret (Some (NewError (mkError (string_of_bytes body) code)))
      else mret None
  end.

Definition remove (key : string) : io error :=
  '(code, body, e) ← doREST transport QueryEscape "DELETE" key [];
  match e with
  | Some e => mret (Some e)
  | None =>
      if (code =? 404)%Z then mret (Some ErrNotFound)
      else if negb (code =? 204)%Z
      then mret (Some (NewError (mkError (string_of_bytes body) code)))
      else mret None
  end.

End SingleKey.

(** ** Counting and the bulk writes, over the RPC interface *)

(** [vals] of [setBulk] and of [removeBulk] *)
Definition set_records (values : gmap string string) : list KV :=
  (λ kv : string * string, mkKV ("_" ++ kv.1) (Some (bytes_of_string kv.2)))
    <$> map_to_list values.

Definition remove_records (keys : list string) : list KV :=
  (λ k : string, mkKV ("_" ++ k) (Some zeroslice)) <$> keys.

Section Counting.

Variable transport : Transport.
(** [strconv.Atoi] and [strconv.ParseInt(s, 10, 64)], of Go's standard
    library: the number read and the error. *)
Variable Atoi : string → Z * error.
Variable ParseInt : string → Z * error.

(** [string(findRec(m, key).Value)] *)
Definition field_text (m : list KV) (key : string) : string :=
  string_of_bytes (slice_bytes (Value (findRec m key))).

(** [Count] returns the number of records in the database. *)
Definition Count : io (Z * error) :=
  '(code, m, e) ← doRPC transport "/rpc/status" [];
  match e with
  | Some e => mret (0%Z, Some e)
  | None =>
      if negb (code =? 200)%Z then mret (0%Z, Some (makeError m))
      else mret (Atoi (field_text m "count"))
  end.

(** [setBulk] stores the values in the map. *)
Definition setBulk (values : gmap string string) : io (Z * error) :=
  let vals := set_records values in
  '(code, m, e) ← doRPC transport "/rpc/set_bulk" vals;
  match e with
  | Some e => mret (0%Z, Some e)
  | None =>
      if negb (code =? 200)%Z then mret (0%Z, Some (makeError m))
      else mret (ParseInt (field_text m "num"))
  end.

Definition removeBulk (keys : list string) : io (Z * error) :=
  let vals := remove_records keys in
  '(code, m, e) ← doRPC transport "/rpc/remove_bulk" vals;
  match e with
  | Some e => mret (0%Z, Some e)
  | None =>
      if negb (code =? 200)%Z then mret (0%Z, Some (makeError m))
      else mret (ParseInt (field_text m "num"))
  end.

End Counting.

(** ** Opening a connection *)

Section Opening.

Variable transport : Transport.
(** [net.JoinHostPort], and [newTLSClientConfig] as far as the connection
    depends on it: whether loading the credentials fails. *)
Variable JoinHostPort : string → string → string.
Variable newTLSClientConfig : string → error.

(** [newConn] builds the connection and checks connectivity with a call
    of [/rpc/void]. [now] is the time of the call; the result is the world
    that holds the new connection, or none with the error. *)
Definition newConn (host : string) (port : Z) (poolsize : Z) (timeout : Z)
    (creds : string) (now : Z) : outcome (option World * error) :=
  let tls :=
    if decide (creds ≠ EmptyString) then
      match newTLSClientConfig creds with
      | Some e => inr e
      | None => inl "https"%string
      end
    else inl "http"%string in
  match tls with
  | inr e => Ret (None, Some e)
  | inl scheme =>
      let portstr := FormatInt port in
      let c := mkConn 0 scheme timeout (JoinHostPort host portstr) in
      let '(w, r) := doRPC transport "/rpc/void" [] (mkWorld c now 0) in
      '(_, _, e) ← r;
      match e with
      | Some e => Ret (None, Some e)
      | None => Ret (Some w, None)
      end
  end.

(** [NewConn] creates a connection to a Kyoto Tycoon endpoint. *)
Definition NewConn (host : string) (port : Z) (poolsize : Z) (timeout : Z)
    (now : Z) : outcome (option World * error) :=
  newConn host port poolsize timeout EmptyString now.

(** [NewConnTLS] creates a TLS enabled connection. *)
Definition NewConnTLS (host : string) (port : Z) (poolsize : Z)
    (timeout : Z) (creds : string) (now : Z)
  : outcome (option World * error) :=
  newConn host port poolsize timeout creds now.

End Opening.

(** ** What a call returns, read off the deciding attempt *)

(** The deciding attempt's timer is still running at the time [now]. *)
Definition in_time (f : Final) (now : Z) : bool :=
  bool_decide (now < deadline (final_timer f))%Z.

(** The result of [doREST]. *)
Definition rest_result (f : Final) : Z * list byte * error :=
  match Reply (final_attempt f) with
  | inr e =>
      (0%Z, [], Some (if in_time f (final_clock f) then e else ErrTimeout))
  | inl resp =>
      (StatusCode resp, Body resp,
       if in_time f (final_clock f + BodyTime resp) then BodyErr resp
       else Some ErrTimeout)
  end.

(** The result of [doRPC]. *)
Definition rpc_result (f : Final) : outcome (Z * list KV * error) :=
  match Reply (final_attempt f) with
  | inr e =>
      Ret (0%Z, [],
           Some (if in_time f (final_clock f) then e else ErrTimeout))
  | inl resp =>
      if in_time f (final_clock f + BodyTime resp) then
        match BodyErr resp with
        | Some e => Ret (0%Z, [], Some e)
        | None =>
            '(m, e) ← DecodeValues (Body resp) (ContentType resp);
            match e with
            | Some e => Ret (0%Z, [], Some e)
            | None => Ret (StatusCode resp, m, None)
            end
        end
      else Ret (0%Z, [], Some ErrTimeout)
  end.

(** The connection after [roundTrip]: a failed first attempt is counted. *)
Definition conn_after (transport : Transport) (w : World) (req : Request)
  : Conn :=
  match Reply (transport (served w) req) with
  | inl _ => conn w
  | inr _ => retried (conn w)
  end.

(** The message of the error [makeError] builds. *)
Definition error_message (m : list KV) : string :=
  match List.find (λ kv, String.eqb (Key kv) "ERROR") m with
  | Some kv => string_of_bytes (slice_bytes (Value kv))
  | None => "generic error"
  end.

(** ** Percent escapes *)

(** A hexadecimal digit, in upper or lower case. *)
Definition hex_digit (upper : bool) (d : N) : byte :=
  if (d <? 10)%N then to_byte (48 + d)
  else to_byte ((if upper then 55 else 87) + d).

(** Every byte written as [%XX]. *)
Definition percent_escape (upper : bool) (b : list byte) : list byte :=
  concat (map (λ c, [PERCENT; hex_digit upper (byte_val c / 16);
                     hex_digit upper (byte_val c mod 16)]) b).

(** The number of bytes [c] in [b]. *)
Definition count_byte (c : byte) (b : list byte) : nat :=
  length (filter (λ d, byte_eqb d c) b).

(** A server that answers every request with a status code and a body,
    in time. *)
Definition responds (code : Z) (body : list byte) : Transport :=
  λ _ _, mkAttempt 5 (inl (tsv_response code body 1)).

(** A server whose first answer is lost and whose second fails too. *)
Definition always_fails : Transport :=
  λ n _, match n with
         | O => mkAttempt 5 (inr (Foreign "EOF"))
         | S _ => mkAttempt 5 (inr (Foreign "connection refused"))
         end.

(** The REST call [op] on [key] is answered by [resp]: the response
    arrived and was read to the end before the timer fired, without a read
    error. *)
Definition answered (transport : Transport) (QueryEscape : string → string)
    (key : string) (w : World) (op : string) (val : list byte)
    (resp : Response) : Prop :=
  let f := final transport w (rest_request QueryEscape (conn w) op key val) in
  Reply (final_attempt f) = inl resp
  ∧ ¬ fired (final_timer f) (final_clock f + BodyTime resp)
  ∧ BodyErr resp = None.

(** The RPC call of [path] with [values] is answered by [resp], in the
    same sense. *)
Definition rpc_answered (transport : Transport) (w : World) (path : string)
    (values : list KV) (resp : Response) : Prop :=
  ∃ body enc,
    TSVEncode values = Ret (body, enc)
    ∧ let f := final transport w (rpc_request (conn w) path body enc) in
      Reply (final_attempt f) = inl resp
      ∧ ¬ fired (final_timer f) (final_clock f + BodyTime resp)
      ∧ BodyErr resp = None.

(** [ERROR TAB boom LF] *)
Definition error_body : list byte :=
  [x45; x52; x52; x4f; x52; x09; x62; x6f; x6f; x6d; x0a].


(** * Properties *)

(** ** Bytes and bit arithmetic *)

Ltac narith := zify; Z.to_euclidean_division_equations; lia.

(** Turns boolean comparisons in the hypotheses into propositions. *)
Ltac bool_arith :=
  repeat match goal with
  | H : _ && _ = true |- _ => apply andb_prop in H as [? ?]
  | H : _ || _ = false |- _ => apply orb_false_elim in H as [? ?]
  | H : (_ <=? _)%N = true |- _ => apply N.leb_le in H
  | H : (_ <=? _)%N = false |- _ => apply N.leb_gt in H
  | H : (_ <? _)%N = true |- _ => apply N.ltb_lt in H
  | H : (_ <? _)%N = false |- _ => apply N.ltb_ge in H
  | H : (_ =? _)%N = true |- _ => apply N.eqb_eq in H
  | H : (_ =? _)%N = false |- _ => apply N.eqb_neq in H
  end; try lia.

Lemma byte_val_bound (b : byte) : (byte_val b < 256)%N.
Proof. unfold byte_val. pose proof (Byte.to_N_bounded b). lia. Qed.

Lemma to_byte_mod (x : N) (b : byte) :
  (x mod 256 = byte_val b)%N → to_byte x = b.
Proof.
  intros Hx. unfold to_byte. rewrite Hx. unfold byte_val.
  by rewrite Byte.of_to_N.
Qed.

Lemma to_byte_val (b : byte) : to_byte (byte_val b) = b.
Proof.
  apply to_byte_mod, N.mod_small, byte_val_bound.
Qed.

Lemma byte_eqb_eq (a b : byte) : byte_eqb a b = true ↔ a = b.
Proof.
  unfold byte_eqb. split.
  - apply Byte.byte_dec_bl.
  - apply Byte.byte_dec_lb.
Qed.

Lemma byte_eqb_refl (a : byte) : byte_eqb a a = true.
Proof. by apply byte_eqb_eq. Qed.

Lemma byte_eqb_neq (a b : byte) : byte_eqb a b = false ↔ a ≠ b.
Proof.
  rewrite <- byte_eqb_eq. destruct (byte_eqb a b); split; congruence.
Qed.

Lemma land_mul_pow2_low (hi k lo : N) :
  (lo < 2 ^ k)%N → N.land (hi * 2 ^ k) lo = 0%N.
Proof.
  intros Hlo. apply N.bits_inj. intros n.
  rewrite N.land_spec, N.bits_0.
  destruct (N.lt_ge_cases n k) as [Hn | Hn].
  - by rewrite N.mul_pow2_bits_low.
  - apply andb_false_intro2.
    destruct (N.eq_0_gt_0_cases lo) as [-> | Hpos]; [apply N.bits_0 |].
    apply N.bits_above_log2.
    apply N.lt_le_trans with k; [| done].
    by apply N.log2_lt_pow2.
Qed.

(** [x | lo] is [x + lo] when [x] is a multiple of [2 ^ k] above [lo]. *)
Lemma lor_add_low (k x lo : N) :
  (x mod 2 ^ k = 0)%N → (lo < 2 ^ k)%N → N.lor x lo = (x + lo)%N.
Proof.
  intros Hx Hlo.
  assert (N.land x lo = 0%N) as Hland.
  { rewrite (N.div_mod' x (2 ^ k)), Hx, N.add_0_r, N.mul_comm.
    by apply land_mul_pow2_low. }
  by rewrite N.add_nocarry_lxor, N.lxor_lor.
Qed.

Lemma land_63 (x : N) : N.land x 63 = (x mod 64)%N.
Proof. exact (N.land_ones x 6). Qed.

Lemma filter_all {A} (P : A → Prop) `{∀ x, Decision (P x)} (l : list A) :
  Forall P l → filter P l = l.
Proof.
  induction 1 as [| x l Hx _ IH]; [done |].
  by rewrite filter_cons_True, IH.
Qed.

(** ** base64 *)

Module base64_facts.
Import base64.
Local Open Scope N_scope.

Lemma list_ind3 {A} (P : list A → Prop) :
  P [] → (∀ a, P [a]) → (∀ a b, P [a; b]) →
  (∀ a b c rest, P rest → P (a :: b :: c :: rest)) →
  ∀ l, P l.
Proof.
  intros H0 H1 H2 H3 l.
  cut (P l ∧ (∀ a, P (a :: l)) ∧ (∀ a b, P (a :: b :: l))); [tauto |].
  induction l as [| x l (IH0 & IH1 & IH2)]; [by auto |].
  split_and!; [by apply IH1 | by intros; apply IH2 |].
  intros a b. by apply H3.
Qed.

Lemma EncodedLen_step (n : nat) :
  EncodedLen (S (S (S n))) = (4 + EncodedLen n)%nat.
Proof.
  unfold EncodedLen.
  replace (S (S (S n)) + 2)%nat with ((n + 2) + 1 * 3)%nat by lia.
  rewrite Nat.div_add by lia. lia.
Qed.

(** [Encode] writes [EncodedLen(len(src))] bytes. *)
Lemma encoded_length (src : list byte) :
  length (encoded src) = EncodedLen (length src).
Proof.
  induction src as [| a | a b | a b c rest IH] using list_ind3; try done.
  cbn [encoded]. rewrite length_app, IH.
  cbn [length quantum3]. by rewrite EncodedLen_step.
Qed.

Lemma enc6_table :
  forallb (λ k, match dec6 (nth k encodeStd x00) with
                | Some s => N.eqb s (N.of_nat k)
                | None => false
                end) (seq 0 64) = true.
Proof. by vm_compute. Qed.

(** The decode map inverts the alphabet. *)
Lemma dec6_enc6 (i : N) : dec6 (enc6 i) = Some (i mod 64).
Proof.
  unfold enc6. rewrite land_63.
  pose proof enc6_table as Htable.
  rewrite forallb_forall in Htable.
  specialize (Htable (N.to_nat (i mod 64))).
  destruct (dec6 _) as [s |].
  - f_equal. apply N.eqb_eq in Htable; [lia |].
    apply in_seq. narith.
  - discriminate Htable. apply in_seq. narith.
Qed.

Lemma dec6_PAD : dec6 PAD = None.
Proof. reflexivity. Qed.

Lemma dec6_bound (c : byte) (s : N) : dec6 c = Some s → s < 64.
Proof.
  unfold dec6. pose proof (byte_val_bound c).
  repeat case_match; intros [= <-]; bool_arith.
Qed.

Lemma wire_char_enc6 (i : N) : wire_char (enc6 i).
Proof. left. rewrite dec6_enc6. eauto. Qed.

Lemma wire_char_PAD : wire_char PAD.
Proof. by right. Qed.

Lemma encoded_wire_chars (src : list byte) :
  Forall wire_char (encoded src).
Proof.
  induction src as [| a | a b | a b c rest IH] using list_ind3;
    cbn [encoded quantum1 quantum2 quantum3 app];
    repeat (apply Forall_cons; split);
    auto using wire_char_enc6, wire_char_PAD, Forall_nil_2.
Qed.

Lemma wire_char_not (c d : byte) :
  wire_char c → dec6 d = None → d ≠ PAD → c ≠ d.
Proof.
  intros [[s Hs] | ->] Hd Hpad; congruence.
Qed.

Lemma decode_quantum3 (a b c : byte) (rest : list byte) :
  decode_quanta (quantum3 a b c ++ rest) = a :: b :: c :: decode_quanta rest.
Proof.
  pose proof (byte_val_bound a). pose proof (byte_val_bound b).
  pose proof (byte_val_bound c).
  cbn [quantum3 app decode_quanta]. rewrite !dec6_enc6.
  rewrite !N.shiftl_mul_pow2, !N.shiftr_div_pow2.
  change (2 ^ 18) with 262144. change (2 ^ 16) with 65536.
  change (2 ^ 12) with 4096. change (2 ^ 8) with 256.
  change (2 ^ 6) with 64.
  rewrite (lor_add_low 16 (byte_val a * 65536)) by narith.
  rewrite (lor_add_low 8 (byte_val a * 65536 + byte_val b * 256))
    by narith.
  set (v := byte_val a * 65536 + byte_val b * 256 + byte_val c).
  rewrite (lor_add_low 18 (_ * 262144)) by narith.
  rewrite (lor_add_low 12 (_ * 262144 + _)) by narith.
  rewrite (lor_add_low 6 (_ * 262144 + _ + _)) by narith.
  assert (v / 262144 mod 64 * 262144 + v / 4096 mod 64 * 4096
          + v / 64 mod 64 * 64 + v mod 64 = v) as -> by (subst v; narith).
  f_equal; [| f_equal; [| f_equal]];
    apply to_byte_mod; subst v; narith.
Qed.

Lemma decode_quantum2 (a b : byte) :
  decode_quanta (quantum2 a b) = [a; b].
Proof.
  pose proof (byte_val_bound a). pose proof (byte_val_bound b).
  cbn [quantum2 decode_quanta]. rewrite !dec6_enc6, dec6_PAD.
  rewrite byte_eqb_refl.
  rewrite !N.shiftl_mul_pow2, !N.shiftr_div_pow2.
  change (2 ^ 18) with 262144. change (2 ^ 16) with 65536.
  change (2 ^ 12) with 4096. change (2 ^ 8) with 256.
  change (2 ^ 6) with 64.
  rewrite (lor_add_low 16 (byte_val a * 65536)) by narith.
  set (v := byte_val a * 65536 + byte_val b * 256).
  rewrite (lor_add_low 18 (_ * 262144)) by narith.
  rewrite (lor_add_low 12 (_ * 262144 + _)) by narith.
  assert (v / 262144 mod 64 * 262144 + v / 4096 mod 64 * 4096
          + v / 64 mod 64 * 64 = v) as -> by (subst v; narith).
  f_equal; [| f_equal]; apply to_byte_mod; subst v; narith.
Qed.

Lemma decode_quantum1 (a : byte) : decode_quanta (quantum1 a) = [a].
Proof.
  pose proof (byte_val_bound a).
  cbn [quantum1 decode_quanta]. rewrite !dec6_enc6, dec6_PAD.
  rewrite byte_eqb_refl. cbn [andb].
  rewrite !N.shiftl_mul_pow2, !N.shiftr_div_pow2.
  change (2 ^ 18) with 262144. change (2 ^ 16) with 65536.
  change (2 ^ 12) with 4096.
  set (v := byte_val a * 65536).
  rewrite (lor_add_low 18 (_ * 262144)) by narith.
  assert (v / 262144 mod 64 * 262144 + v / 4096 mod 64 * 4096 = v)
    as -> by (subst v; narith).
  f_equal. apply to_byte_mod; subst v; narith.
Qed.

Lemma decode_quanta_encoded (src : list byte) :
  decode_quanta (encoded src) = src.
Proof.
  induction src as [| a | a b | a b c rest IH] using list_ind3.
  - done.
  - apply decode_quantum1.
  - apply decode_quantum2.
  - cbn [encoded]. by rewrite decode_quantum3, IH.
Qed.

(** Decoding inverts encoding. *)
Lemma decoded_encoded (src : list byte) : decoded (encoded src) = src.
Proof.
  unfold decoded. rewrite filter_all; [apply decode_quanta_encoded |].
  eapply Forall_impl; [apply encoded_wire_chars |].
  intros c Hc. rewrite !byte_eqb_neq.
  split; by apply wire_char_not.
Qed.

End base64_facts.

(** ** The encoder *)

Lemma bytes_of_string_length (s : string) :
  length (bytes_of_string s) = String.length s.
Proof.
  unfold bytes_of_string, list_byte_of_string.
  rewrite length_map. induction s as [| a s IH]; [done |].
  cbn. by rewrite IH.
Qed.

Lemma EncodedLen_ge (n : nat) : n ≤ base64.EncodedLen n.
Proof.
  unfold base64.EncodedLen.
  pose proof (Nat.div_mod_eq (n + 2) 3) as Hdiv.
  pose proof (Nat.mod_upper_bound (n + 2) 3). lia.
Qed.

Lemma field_wire_length (hasbinary : bool) (field : list byte) :
  length (field_wire hasbinary field) ≤ base64.EncodedLen (length field).
Proof.
  destruct hasbinary; cbn.
  - by rewrite base64_facts.encoded_length.
  - apply EncodedLen_ge.
Qed.

Lemma record_wire_length (hasbinary : bool) (kv : KV) :
  length (record_wire hasbinary kv) ≤ reserved kv.
Proof.
  unfold record_wire, reserved. rewrite !length_app. cbn [length].
  pose proof (field_wire_length hasbinary (bytes_of_string (Key kv))) as Hk.
  pose proof (field_wire_length hasbinary (slice_bytes (Value kv))).
  rewrite bytes_of_string_length in Hk. lia.
Qed.

Lemma record_wire_base64_length (kv : KV) :
  length (record_wire true kv) = reserved kv.
Proof.
  unfold record_wire, reserved, field_wire. rewrite !length_app.
  rewrite !base64_facts.encoded_length, bytes_of_string_length.
  cbn [length]. lia.
Qed.

Lemma records_wire_length (hasbinary : bool) (values : list KV) :
  length (records_wire hasbinary values) ≤ reserved_total values.
Proof.
  unfold records_wire, reserved_total.
  induction values as [| kv values IH]; [done |].
  cbn -[reserved record_wire]. rewrite length_app.
  pose proof (record_wire_length hasbinary kv). lia.
Qed.

Lemma records_wire_base64_length (values : list KV) :
  length (records_wire true values) = reserved_total values.
Proof.
  unfold records_wire, reserved_total.
  induction values as [| kv values IH]; [done |].
  cbn -[reserved record_wire].
  by rewrite length_app, record_wire_base64_length, IH.
Qed.

(** The first pass. *)
Lemma scan_spec (values : list KV) (bufsize : nat) (hasbinary : bool) :
  fold_left scan_step values (bufsize, hasbinary)
  = (bufsize + reserved_total values, hasbinary || any_binary values).
Proof.
  revert bufsize hasbinary.
  induction values as [| kv values IH]; intros bufsize hasbinary.
  - cbn. by rewrite Nat.add_0_r, orb_false_r.
  - cbn [fold_left scan_step]. rewrite IH. f_equal.
    + unfold reserved_total, reserved. cbn. lia.
    + cbn [any_binary existsb]. by rewrite !orb_assoc.
Qed.

(** The second pass, a field at a time: writing at the end of the bytes
    [written] so far, into room [rest] that is large enough. *)
Lemma write_field_spec (hasbinary : bool) (written rest field : list byte) :
  length (field_wire hasbinary field) ≤ length rest →
  write_field hasbinary (written ++ rest) (length written) field
  = Ret ((written ++ field_wire hasbinary field)
           ++ drop (length (field_wire hasbinary field)) rest,
         length (written ++ field_wire hasbinary field)).
Proof.
  intros Hroom. rewrite <- app_assoc, length_app.
  unfold write_field, field_wire in *.
  destruct hasbinary.
  - unfold Encode_at. rewrite length_app.
    rewrite decide_True by lia. rewrite decide_True by lia.
    cbn. rewrite take_app_length, drop_app_add'  by done.
    by rewrite base64_facts.encoded_length.
  - unfold copy_at. rewrite length_app. rewrite decide_True by lia.
    cbn. replace (length field `min` _) with (length field) by lia.
    by rewrite take_app_length, firstn_all, drop_app_add' by done.
Qed.

Lemma store_spec (written rest : list byte) (c : byte) :
  0 < length rest →
  store (written ++ rest) (length written) c
  = Ret ((written ++ [c]) ++ drop 1 rest).
Proof.
  intros Hroom. rewrite <- app_assoc. unfold store. rewrite length_app.
  rewrite decide_True by lia.
  destruct rest as [| c0 rest]; [cbn in Hroom; lia |].
  by rewrite insert_app_r_alt, Nat.sub_diag by lia.
Qed.

Lemma write_step_spec (hasbinary : bool) (written rest : list byte) (kv : KV) :
  length (record_wire hasbinary kv) ≤ length rest →
  write_step hasbinary (written ++ rest, length written) kv
  = Ret ((written ++ record_wire hasbinary kv)
           ++ drop (length (record_wire hasbinary kv)) rest,
         length (written ++ record_wire hasbinary kv)).
Proof.
  unfold record_wire. rewrite !length_app. cbn [length]. intros Hroom.
  set (K := field_wire hasbinary (bytes_of_string (Key kv))) in *.
  set (V := field_wire hasbinary (slice_bytes (Value kv))) in *.
  unfold write_step.
  rewrite write_field_spec by (fold K; lia). fold K. cbn [mbind outcome_bind obind].
  rewrite store_spec by (rewrite length_drop; lia).
  cbn [mbind outcome_bind obind].
  replace (length (written ++ K) + 1) with (length ((written ++ K) ++ [TAB]))
    by (rewrite !length_app; cbn; lia).
  rewrite write_field_spec by (fold V; rewrite !length_drop; lia).
  fold V. cbn [mbind outcome_bind obind].
  rewrite store_spec by (rewrite !length_drop; lia).
  cbn [mbind outcome_bind obind].
  rewrite !drop_drop. f_equal. f_equal.
  - by rewrite <- !app_assoc.
  - rewrite !length_app. cbn. lia.
Qed.

Lemma write_loop_spec (hasbinary : bool) (values : list KV)
    (written rest : list byte) :
  length (records_wire hasbinary values) ≤ length rest →
  foldM (write_step hasbinary) values (written ++ rest, length written)
  = Ret ((written ++ records_wire hasbinary values)
           ++ drop (length (records_wire hasbinary values)) rest,
         length (written ++ records_wire hasbinary values)).
Proof.
  revert written rest.
  induction values as [| kv values IH]; intros written rest Hroom.
  - cbn. by rewrite !app_nil_r, drop_0.
  - cbn [foldM]. unfold records_wire in *. cbn [map concat] in *.
    rewrite length_app in Hroom.
    rewrite write_step_spec by lia. cbn [mbind outcome_bind obind].
    rewrite IH by (rewrite length_drop; lia).
    by rewrite drop_drop, !app_assoc, !length_app.
Qed.

(** [TSVEncode] never panics, and what it returns: the records in the
    chosen encoding, followed by what is left of the zeroed buffer. *)
Lemma TSVEncode_spec (values : list KV) :
  TSVEncode values
  = Ret (records_wire (any_binary values) values
           ++ replicate (reserved_total values
                         - length (records_wire (any_binary values) values))
                x00,
         if any_binary values then Base64Enc else IdentityEnc).
Proof.
  unfold TSVEncode. rewrite scan_spec. cbn [orb Nat.add].
  pose proof (records_wire_length (any_binary values) values) as Hlen.
  pose proof (write_loop_spec (any_binary values) values []
                (make_bytes (reserved_total values))) as Hloop.
  unfold make_bytes in *. rewrite length_replicate in Hloop.
  cbn [app length] in Hloop. rewrite Hloop by done.
  cbn [mbind outcome_bind obind]. by rewrite drop_replicate.
Qed.

(** ** Printable fields *)

Lemma is_binary_false (c : byte) : is_binary c = false ↔ printable c.
Proof.
  unfold is_binary, printable. rewrite orb_false_iff, !N.ltb_ge. lia.
Qed.

Lemma hasBinarySlice_false (b : list byte) :
  hasBinarySlice b = false ↔ Forall printable b.
Proof.
  induction b as [| c b IH]; cbn.
  - split; [by constructor | done].
  - rewrite Forall_cons, <- IH, <- is_binary_false.
    destruct (is_binary c); intuition congruence.
Qed.

Lemma hasBinary_false (s : string) :
  hasBinary s = false ↔ Forall printable (bytes_of_string s).
Proof.
  unfold bytes_of_string, list_byte_of_string.
  induction s as [| a s IH]; cbn.
  - split; [by constructor | done].
  - rewrite Forall_cons, <- IH, <- is_binary_false.
    destruct (is_binary _); intuition congruence.
Qed.

Lemma any_binary_false (values : list KV) :
  any_binary values = false ↔ all_printable values.
Proof.
  unfold any_binary, all_printable, printable_record.
  induction values as [| kv values IH]; cbn.
  - split; [by constructor | done].
  - rewrite Forall_cons, <- IH, !orb_false_iff.
    by rewrite hasBinary_false, hasBinarySlice_false.
Qed.

Lemma encoding_of_any_binary (values : list KV) :
  (if any_binary values then Base64Enc else IdentityEnc)
  = encoding_of values.
Proof.
  unfold encoding_of. pose proof (any_binary_false values) as Hiff.
  destruct (any_binary values); case_decide; intuition congruence.
Qed.

Lemma printable_not_TAB (c : byte) : printable c → c ≠ TAB.
Proof. intros Hc ->. unfold printable in Hc. cbn in Hc. lia. Qed.

Lemma printable_not_LF (c : byte) : printable c → c ≠ LF.
Proof. intros Hc ->. unfold printable in Hc. cbn in Hc. lia. Qed.

(** ** Reading up to a delimiter *)

Lemma ReadBytes_found (delim : byte) (line rest : list byte) :
  Forall (λ c, c ≠ delim) line →
  ReadBytes delim (line ++ delim :: rest) = (line ++ [delim], false, rest).
Proof.
  induction 1 as [| c line Hc _ IH]; cbn.
  - by rewrite byte_eqb_refl.
  - apply byte_eqb_neq in Hc. by rewrite Hc, IH.
Qed.

Lemma ReadBytes_eof (delim : byte) (line : list byte) :
  Forall (λ c, c ≠ delim) line →
  ReadBytes delim line = (line, true, []).
Proof.
  induction 1 as [| c line Hc _ IH]; cbn; [done |].
  apply byte_eqb_neq in Hc. by rewrite Hc, IH.
Qed.

(** What [ReadBytes] returns and what it leaves make up the buffer, and a
    line that was found is not empty. *)
Lemma ReadBytes_split (delim : byte) (b line rest : list byte) (eof : bool) :
  ReadBytes delim b = (line, eof, rest) →
  b = line ++ rest ∧ (eof = false → 0 < length line).
Proof.
  revert line rest eof.
  induction b as [| c b IH]; intros line rest eof; cbn.
  - intros [= <- <- <-]. done.
  - destruct (byte_eqb c delim).
    + intros [= <- <- <-]. cbn. split; [done | lia].
    + destruct (ReadBytes delim b) as [[line' eof'] rest'].
      intros [= <- <- <-]. destruct (IH _ _ _ eq_refl) as [-> _].
      cbn. split; [done | lia].
Qed.

Lemma ends_with_snoc (l : list byte) (c : byte) :
  ends_with (l ++ [c]) c = true.
Proof. unfold ends_with. by rewrite last_snoc, byte_eqb_refl. Qed.

(** ** The decoding loop *)

Lemma decodeLoop_records (decodef : decodefunc) (hasbinary : bool)
    (values : list KV) (tail : list byte) :
  decodes decodef hasbinary values →
  Forall (λ c, c ≠ TAB) tail →
  ∀ fuel result, length values < fuel →
    decodeLoop decodef fuel (records_wire hasbinary values ++ tail) result
    = Ret (result ++ (decoded_record <$> values)).
Proof.
  intros Hvalues Htail.
  induction Hvalues as [| kv values (HK & HV & HdK & HdV) _ IH];
    intros fuel result Hfuel;
    (destruct fuel as [| fuel]; [cbn in Hfuel; lia |]).
  - cbn [decodeLoop records_wire map concat app].
    rewrite ReadBytes_eof by done. by rewrite app_nil_r.
  - cbn [decodeLoop]. unfold records_wire. cbn [map concat].
    unfold record_wire at 1. cbv zeta in HK, HV, HdK, HdV.
    set (K := field_wire hasbinary (bytes_of_string (Key kv))) in *.
    set (V := field_wire hasbinary (slice_bytes (Value kv))) in *.
    rewrite <- !app_assoc. cbn [app].
    rewrite ReadBytes_found by done.
    rewrite length_app, Nat.add_sub, take_app_length, HdK.
    cbn [mbind outcome_bind obind].
    rewrite ReadBytes_found by done.
    rewrite decide_True by (rewrite length_app; cbn; lia).
    rewrite ends_with_snoc, length_app, Nat.add_sub, take_app_length, HdV.
    cbn [mbind outcome_bind obind].
    fold (records_wire hasbinary values).
    rewrite IH by (cbn in Hfuel; lia).
    unfold string_of_bytes, bytes_of_string.
    rewrite string_of_list_byte_of_string.
    rewrite <- app_assoc. by destruct kv.
Qed.

Lemma decodes_identity (values : list KV) :
  all_printable values → decodes identityDecode false values.
Proof.
  unfold all_printable, decodes. intros Hall.
  eapply Forall_impl; [exact Hall |].
  intros kv [HK HV]. cbn. split_and!; try done.
  - eapply Forall_impl; [exact HK | apply printable_not_TAB].
  - eapply Forall_impl; [exact HV | apply printable_not_LF].
Qed.

Lemma decodes_base64 (values : list KV) :
  decodes base64Decode true values.
Proof.
  unfold decodes. apply Forall_forall. intros kv _. cbn.
  unfold base64Decode. rewrite !base64_facts.decoded_encoded.
  split_and!; try done.
  all: eapply Forall_impl; [apply base64_facts.encoded_wire_chars |].
  all: intros c Hc; by apply base64_facts.wire_char_not.
Qed.

Lemma records_wire_count (hasbinary : bool) (values : list KV) :
  length values ≤ length (records_wire hasbinary values).
Proof.
  unfold records_wire.
  induction values as [| kv values IH]; [done |].
  cbn [map concat length]. unfold record_wire at 1.
  rewrite !length_app. cbn [length]. lia.
Qed.

(** Fuel never runs out: the loop reads a tab every time round. *)
Lemma decodeLoop_fuel (decodef : decodefunc) :
  (∀ b, decodef b ≠ Panic out_of_fuel) →
  ∀ fuel b result, length b < fuel →
    decodeLoop decodef fuel b result ≠ Panic out_of_fuel.
Proof.
  intros Hdec fuel.
  induction fuel as [| fuel IH]; intros b result Hfuel; [lia |].
  cbn [decodeLoop].
  destruct (ReadBytes TAB b) as [[key eof] b1] eqn:Hkey.
  apply ReadBytes_split in Hkey as [-> Hkeylen].
  destruct eof; [done |].
  specialize (Hdec (take (length key - 1) key)) as Hk.
  destruct (decodef _) as [key' | msg]; cbn [mbind outcome_bind obind];
    [| congruence].
  destruct (ReadBytes LF b1) as [[value eof] b2] eqn:Hvalue.
  apply ReadBytes_split in Hvalue as [-> _].
  assert (length b2 < fuel) as Hb2.
  { rewrite !length_app in Hfuel. specialize (Hkeylen eq_refl). lia. }
  case_decide; cbn [mbind outcome_bind obind].
  - match goal with |- context [decodef ?x] =>
      specialize (Hdec x) as Hv; destruct (decodef x) as [value' | msg]
    end; cbn [mbind outcome_bind obind]; [| congruence].
    destruct eof; [done | by apply IH].
  - destruct eof; [done | by apply IH].
Qed.

Lemma urlDecode_no_fuel (b : list byte) : urlDecode b ≠ Panic out_of_fuel.
Proof.
  assert (∀ n b, length b < n → urlDecode b ≠ Panic out_of_fuel) as Hn.
  { clear b. induction n as [| n IH]; intros b Hlen; [lia |].
    destruct b as [| c rest]; [done |]. cbn [urlDecode].
    destruct (byte_eqb c PERCENT).
    - destruct rest as [| h1 [| h2 rest']]; try done.
      cbn in Hlen. specialize (IH rest' ltac:(lia)).
      destruct (urlDecode rest'); cbn; congruence.
    - cbn in Hlen. specialize (IH rest ltac:(lia)).
      destruct (urlDecode rest); cbn; congruence. }
  apply (Hn (S (length b))). lia.
Qed.

(** ** The content type *)

Lemma final_char_empty : final_char "" = Panic index_out_of_range.
Proof. reflexivity. Qed.

Lemma final_char_nonempty (contenttype : string) :
  contenttype ≠ "" → ∃ c, final_char contenttype = Ret c.
Proof.
  intros Hne. unfold final_char, string_at.
  destruct contenttype as [| a s]; [done |].
  rewrite decide_True by (cbn [String.length]; lia).
  destruct (String.get _ _) as [a' |] eqn:Hget; [by eauto |].
  exfalso. revert Hget.
  replace (Z.to_nat (Z.of_nat (String.length (String a s)) - 1))
    with (String.length s) by (cbn [String.length]; lia).
  clear Hne. revert a.
  induction s as [| b s IH]; intros a; cbn; [done | apply IH].
Qed.

Lemma DecodeValues_empty (contenttype : string) :
  DecodeValues [] contenttype = Ret ([], None).
Proof. reflexivity. Qed.

Section Dispatch.

Variables (buf : list byte) (contenttype : string) (c : byte).
Hypothesis Hbuf : buf ≠ [].
Hypothesis Hfinal : final_char contenttype = Ret c.

Lemma DecodeValues_nonempty :
  DecodeValues buf contenttype
  = if byte_eqb c "B" then decode_fields base64Decode buf
    else if byte_eqb c "U" then decode_fields urlDecode buf
    else if byte_eqb c "s" then decode_fields identityDecode buf
    else Ret ([], Some (unknown_content_type contenttype)).
Proof.
  unfold DecodeValues. rewrite decide_False by by destruct buf.
  rewrite Hfinal. cbn [mbind outcome_bind obind]. unfold select_decodef.
  by destruct (byte_eqb c "B"), (byte_eqb c "U"), (byte_eqb c "s").
Qed.

End Dispatch.

Lemma DecodeValues_fuel (buf : list byte) (contenttype : string) :
  DecodeValues buf contenttype ≠ Panic out_of_fuel.
Proof.
  destruct buf as [| b0 buf]; [done |].
  destruct contenttype as [| a s]; [done |].
  destruct (final_char_nonempty (String a s)) as [c Hc]; [done |].
  rewrite (DecodeValues_nonempty _ _ c) by done.
  assert (∀ decodef, (∀ b, decodef b ≠ Panic out_of_fuel) →
            decode_fields decodef (b0 :: buf) ≠ Panic out_of_fuel) as Hrun.
  { intros decodef Hdec. unfold decode_fields.
    pose proof (decodeLoop_fuel decodef Hdec (S (length (b0 :: buf)))
                  (b0 :: buf) [] ltac:(lia)) as Hloop.
    destruct (decodeLoop _ _ _ _); cbn; congruence. }
  repeat case_match; try done; apply Hrun;
    auto using urlDecode_no_fuel; done.
Qed.

(** Decoding the wire form of records, zero padding included. *)
Lemma DecodeValues_wire (decodef : decodefunc) (hasbinary : bool)
    (values : list KV) (pad : nat) (contenttype : string) :
  decodes decodef hasbinary values →
  (∀ buf, buf ≠ [] →
     DecodeValues buf contenttype = decode_fields decodef buf) →
  DecodeValues (records_wire hasbinary values ++ replicate pad x00)
    contenttype
  = Ret (decoded_record <$> values, None).
Proof.
  intros Hdec Hdispatch.
  pose proof (records_wire_count hasbinary values) as Hcount.
  set (buf := records_wire hasbinary values ++ replicate pad x00).
  destruct (decide (length buf = 0)) as [Hlen | Hlen].
  - subst buf. rewrite length_app in Hlen.
    assert (values = []) as -> by (apply nil_length_inv; lia).
    assert (pad = 0) as -> by (rewrite length_replicate in Hlen; lia).
    done.
  - rewrite Hdispatch by (by destruct buf).
    unfold decode_fields. subst buf.
    rewrite (decodeLoop_records decodef hasbinary values); try done.
    + by apply Forall_replicate.
    + rewrite length_app. lia.
Qed.

(** Records whose values are not nil are decoded as they were. *)
Lemma decoded_record_id (values : list KV) :
  Forall (λ kv, is_Some (Value kv)) values →
  decoded_record <$> values = values.
Proof.
  induction 1 as [| [key value] values [v Hv] _ IH]; [done |].
  cbn in Hv. subst value. by rewrite fmap_cons, IH.
Qed.

(** ** The codec: claims *)

(** C1. Decoding what [TSVEncode] produced, under a content type whose
    final character names the encoding it chose (['s'] for Identity,
    ['B'] for Base64), gives back the records: the same keys and value
    bytes, in the same order. This holds for every record list, printable
    or not; a nil value comes back as an empty one. *)
Theorem decode_encode_roundtrip (values : list KV) (contenttype : string) :
  final_char contenttype = Ret (marker (encoding_of values)) →
  ∃ buf, TSVEncode values = Ret (buf, encoding_of values)
         ∧ DecodeValues buf contenttype
           = Ret (decoded_record <$> values, None).
Proof.
  intros Hfinal. rewrite TSVEncode_spec, encoding_of_any_binary.
  eexists. split; [reflexivity |].
  unfold encoding_of in Hfinal.
  pose proof (any_binary_false values) as Hprintable.
  case_decide as Hall.
  - rewrite (proj2 Hprintable Hall).
    apply (DecodeValues_wire identityDecode); [by apply decodes_identity |].
    intros buf Hbuf. by rewrite (DecodeValues_nonempty _ _ _ Hbuf Hfinal).
  - destruct (any_binary values); [| by destruct Hall; apply Hprintable].
    apply (DecodeValues_wire base64Decode); [by apply decodes_base64 |].
    intros buf Hbuf. by rewrite (DecodeValues_nonempty _ _ _ Hbuf Hfinal).
Qed.

Lemma decode_encode_roundtrip_witness :
  ∃ buf,
    TSVEncode [mkKV "k" (Some [xff; x09]); mkKV "plain" None]
    = Ret (buf, Base64Enc)
    ∧ DecodeValues buf "text/tab-separated-values; colenc=B"
      = Ret ([mkKV "k" (Some [xff; x09]); mkKV "plain" (Some [])], None).
Proof.
  apply (decode_encode_roundtrip
           [mkKV "k" (Some [xff; x09]); mkKV "plain" None]
           "text/tab-separated-values; colenc=B").
  reflexivity.
Defined.

(** C2. [TSVEncode] chooses one encoding for the whole list. When every
    byte of every key and value is printable ASCII it returns the Identity
    marker and a buffer that starts with every field verbatim (followed by
    what is left of the zeroed buffer); when any byte anywhere is not, it
    returns the Base64 marker and a buffer holding every key and value
    base64-encoded. *)
Theorem TSVEncode_selects_encoding (values : list KV) :
  TSVEncode values
  = if decide (all_printable values) then
      Ret (records_wire false values
             ++ replicate (reserved_total values
                           - length (records_wire false values)) x00,
           IdentityEnc)
    else Ret (records_wire true values, Base64Enc).
Proof.
  rewrite TSVEncode_spec.
  pose proof (any_binary_false values) as Hprintable.
  case_decide as Hall.
  - by rewrite (proj2 Hprintable Hall).
  - destruct (any_binary values); [| by destruct Hall; apply Hprintable].
    by rewrite records_wire_base64_length, Nat.sub_diag, app_nil_r.
Qed.

(** The buffer always has the size reserved for base64. *)
Lemma TSVEncode_length (values : list KV) (buf : list byte) (enc : Encoding) :
  TSVEncode values = Ret (buf, enc) → length buf = reserved_total values.
Proof.
  rewrite TSVEncode_spec. intros [= <- _].
  pose proof (records_wire_length (any_binary values) values).
  rewrite length_app, length_replicate. lia.
Qed.

(** C3, at a printable record list. The record ["a" TAB "b" LF] takes four
    bytes under Identity, and [TSVEncode] returns ten: the buffer was
    sized for base64 and is returned whole, so six zero bytes follow the
    record. *)
Theorem TSVEncode_identity_returns_padding :
  ∃ buf,
    TSVEncode [mkKV "a" (Some (bytes_of_string "b"))] = Ret (buf, IdentityEnc)
    ∧ exact_size IdentityEnc [mkKV "a" (Some (bytes_of_string "b"))] = 4
    ∧ length buf = 10
    ∧ drop 4 buf = replicate 6 x00.
Proof. eexists. by vm_compute. Qed.

(** C4. On a non-empty buffer [DecodeValues] decodes the fields with
    base64 when the content type ends in ['B'], with percent-escape
    decoding when it ends in ['U'] and leaves them as they are when it ends
    in ['s']; for any other final character it fails with an [Error] that
    names the content type. On an empty buffer it returns an empty list
    and no error. Decoding always comes to an end. *)
Theorem DecodeValues_dispatch (buf : list byte) (contenttype : string) :
  (buf = [] → DecodeValues buf contenttype = Ret ([], None))
  ∧ (buf ≠ [] →
       (final_char contenttype = Ret "B"%byte →
          DecodeValues buf contenttype = decode_fields base64Decode buf)
       ∧ (final_char contenttype = Ret "U"%byte →
          DecodeValues buf contenttype = decode_fields urlDecode buf)
       ∧ (final_char contenttype = Ret "s"%byte →
          DecodeValues buf contenttype = decode_fields identityDecode buf)
       ∧ (∀ c, final_char contenttype = Ret c →
            c ≠ "B"%byte → c ≠ "U"%byte → c ≠ "s"%byte →
            DecodeValues buf contenttype
            = Ret ([], Some (unknown_content_type contenttype))
            ∧ as_Error (unknown_content_type contenttype)
              = Some (mkError ("responded with unknown Content-Type: "
                               ++ contenttype) 0)))
  ∧ DecodeValues buf contenttype ≠ Panic out_of_fuel.
Proof.
  split_and!.
  - by intros ->.
  - intros Hbuf. split_and!.
    + intros Hc. by rewrite (DecodeValues_nonempty _ _ _ Hbuf Hc).
    + intros Hc. by rewrite (DecodeValues_nonempty _ _ _ Hbuf Hc).
    + intros Hc. by rewrite (DecodeValues_nonempty _ _ _ Hbuf Hc).
    + intros c Hc HB HU Hs. split; [| done].
      rewrite (DecodeValues_nonempty _ _ _ Hbuf Hc).
      apply byte_eqb_neq in HB, HU, Hs. by rewrite HB, HU, Hs.
  - apply DecodeValues_fuel.
Qed.

Lemma DecodeValues_dispatch_witness :
  DecodeValues [x61; x25; x34; x31; x09; x7a; x0a]
    "text/tab-separated-values; colenc=U"
  = Ret ([mkKV "aA" (Some [x7a])], None)
  ∧ DecodeValues [x61; x09; x7a; x0a] "text/html"
    = Ret ([], Some (unknown_content_type "text/html")).
Proof.
  pose proof (DecodeValues_dispatch [x61; x25; x34; x31; x09; x7a; x0a]
                "text/tab-separated-values; colenc=U") as (_ & HU & _).
  pose proof (DecodeValues_dispatch [x61; x09; x7a; x0a] "text/html")
    as (_ & Hother & _).
  split.
  - destruct (HU ltac:(done)) as (_ & -> & _); reflexivity.
  - destruct (Hother ltac:(done)) as (_ & _ & _ & Hl).
    by destruct (Hl "l"%byte) as [-> _].
Defined.

(** C9. [DecodeValues] indexes the last character of the content type
    unchecked. The index is in range exactly when the content type is not
    empty; with an empty content type and a non-empty buffer the call
    panics, it does not return an error; an empty buffer returns before
    the index is taken, whatever the content type. *)
Theorem DecodeValues_content_type_index (buf : list byte)
    (contenttype : string) :
  ((∃ c, final_char contenttype = Ret c) ↔ contenttype ≠ "")
  ∧ (buf ≠ [] → contenttype = "" →
       DecodeValues buf contenttype = Panic index_out_of_range)
  ∧ (buf = [] → DecodeValues buf contenttype = Ret ([], None)).
Proof.
  split_and!.
  - split; [| apply final_char_nonempty].
    intros [c Hc] ->. by rewrite final_char_empty in Hc.
  - intros Hbuf ->. unfold DecodeValues.
    rewrite decide_False by by destruct buf. done.
  - by intros ->.
Qed.

Lemma DecodeValues_content_type_index_witness :
  DecodeValues [x61; x09; x7a; x0a] "" = Panic index_out_of_range
  ∧ DecodeValues [] "" = Ret ([], None).
Proof.
  pose proof (DecodeValues_content_type_index [x61; x09; x7a; x0a] "")
    as (_ & Hpanic & _).
  pose proof (DecodeValues_content_type_index [] "") as (_ & _ & Hempty).
  split; [by apply Hpanic | by apply Hempty].
Defined.

(** ** The request life cycle *)

Section RoundTrip.

Variable transport : Transport.
Variable QueryEscape : string → string.

(** [roundTrip], attempt by attempt. *)
Lemma roundTrip_unfold (method : string) (url : URL) (headers : Header)
    (body : list byte) (w : World) :
  let req := mkRequest method url headers body in
  let first := transport (served w) req in
  let second := transport (S (served w)) req in
  roundTrip transport method url headers body w
  = match Reply first with
    | inl resp =>
        (mkWorld (conn w) (clock w + Elapsed first) (S (served w)),
         Ret (inl (resp, mkTimer (clock w + timeout (conn w)))))
    | inr _ =>
        let start := (clock w + Elapsed first)%Z in
        let t := mkTimer (start + timeout (conn w)) in
        let w' := mkWorld (retried (conn w)) (start + Elapsed second)
                    (S (S (served w))) in
        match Reply second with
        | inl resp => (w', Ret (inl (resp, t)))
        | inr e =>
            (w', Ret (inr (if bool_decide (start + Elapsed second
                                           < deadline t)%Z
                           then e else ErrTimeout)))
        end
    end.
Proof.
  intros req first second. subst first second req.
  cbv [roundTrip makeRequest RoundTrip AddRetryCount Stop
       mbind mret io_bind io_ret].
  cbn [conn clock served].
  destruct (Reply (transport (served w) _)) as [resp | e1]; [done |].
  cbn [conn clock served].
  by destruct (Reply (transport (S (served w)) _)) as [resp | e2].
Qed.

(** [doRPC] after the request body is encoded. *)
Lemma doRPC_unfold (path : string) (values : list KV) (w : World)
    (body : list byte) (enc : Encoding) :
  TSVEncode values = Ret (body, enc) →
  doRPC transport path values w
  = match roundTrip transport "POST"
            (mkURL (scheme (conn w)) (host (conn w)) path "")
            (headers_for enc) body w with
    | (w1, Ret (inr e)) => (w1, Ret (0%Z, [], Some e))
    | (w1, Ret (inl (resp, t))) =>
        let w2 := mkWorld (conn w1) (clock w1 + BodyTime resp) (served w1) in
        if bool_decide (clock w2 < deadline t)%Z then
          match BodyErr resp with
          | Some e => (w2, Ret (0%Z, [], Some e))
          | None =>
              match DecodeValues (Body resp) (ContentType resp) with
              | Ret (m, None) => (w2, Ret (StatusCode resp, m, None))
              | Ret (_, Some e) => (w2, Ret (0%Z, [], Some e))
              | Panic msg => (w2, Panic msg)
              end
          end
        else (w2, Ret (0%Z, [], Some ErrTimeout))
    | (w1, Panic msg) => (w1, Panic msg)
    end.
Proof.
  intros Henc. unfold doRPC.
  cbv [mbind mret io_bind io_ret lift]. rewrite Henc.
  destruct (roundTrip _ _ _ _ _ w) as [w1 [[[resp t] | e] | msg]]; try done.
  cbv [ReadAll Stop]. cbn [conn clock served].
  destruct (bool_decide _); cbn [negb]; [| done].
  destruct (BodyErr resp); [done |].
  by destruct (DecodeValues _ _) as [[m [e |]] | msg].
Qed.

Lemma doREST_unfold (op key : string) (val : list byte) (w : World) :
  doREST transport QueryEscape op key val w
  = match roundTrip transport op
            (mkURL (scheme (conn w)) (host (conn w)) ""
               ("/" ++ QueryEscape key))
            emptyHeader val w with
    | (w1, Ret (inr e)) => (w1, Ret (0%Z, [], Some e))
    | (w1, Ret (inl (resp, t))) =>
        let w2 := mkWorld (conn w1) (clock w1 + BodyTime resp) (served w1) in
        (w2, Ret (StatusCode resp, Body resp,
                  if bool_decide (clock w2 < deadline t)%Z
                  then BodyErr resp else Some ErrTimeout))
    | (w1, Panic msg) => (w1, Panic msg)
    end.
Proof.
  unfold doREST, urlenc. cbv [mbind mret io_bind io_ret lift].
  destruct (roundTrip _ _ _ _ _ w) as [w1 [[[resp t] | e] | msg]]; try done.
  cbv [ReadAll Stop]. cbn [conn clock served].
  by destruct (bool_decide _).
Qed.

(** [roundTrip] in terms of the attempt that decides it. *)
Lemma roundTrip_final (method : string) (url : URL) (headers : Header)
    (body : list byte) (w : World) :
  let f := final transport w (mkRequest method url headers body) in
  ∃ w', roundTrip transport method url headers body w
        = (w', Ret match Reply (final_attempt f) with
                   | inl resp => inl (resp, final_timer f)
                   | inr e =>
                       inr (if bool_decide (final_clock f
                                            < deadline (final_timer f))%Z
                            then e else ErrTimeout)
                   end)
        ∧ clock w' = final_clock f.
Proof.
  rewrite roundTrip_unfold. unfold final. cbv zeta.
  destruct (Reply (transport (served w) _)) as [resp | e1] eqn:Hfirst.
  - cbn [final_attempt final_timer final_clock]. rewrite Hfirst. eauto.
  - cbn [final_attempt final_timer final_clock].
    destruct (Reply (transport (S (served w)) _)) as [resp | e2]; eauto.
Qed.

End RoundTrip.

Lemma not_stopped_when_fired (t : Timer) (now : Z) :
  fired t now → bool_decide (now < deadline t)%Z = false.
Proof. unfold fired. intros Hfired. apply bool_decide_eq_false. lia. Qed.

(** C7. [roundTrip] makes at most two transport attempts. When the first
    fails and the retry succeeds, the counter read by [RetryCount] goes up
    by one (in [uint64] arithmetic: from [2^64 - 1] it wraps to zero); when
    the first succeeds, one attempt is made and the counter is left as it
    was. *)
Theorem roundTrip_retry_count (transport : Transport) (method : string)
    (url : URL) (headers : Header) (body : list byte) (w : World) :
  let req := mkRequest method url headers body in
  let first := transport (served w) req in
  let second := transport (S (served w)) req in
  let w' := (roundTrip transport method url headers body w).1 in
  served w' ≤ served w + 2
  ∧ (∀ e resp, Reply first = inr e → Reply second = inl resp →
       served w' = served w + 2
       ∧ RetryCount (conn w')
         = ((RetryCount (conn w) + 1) mod uint64_modulus)%Z
       ∧ ((0 ≤ RetryCount (conn w) < uint64_modulus - 1)%Z →
          RetryCount (conn w') = (RetryCount (conn w) + 1)%Z))
  ∧ (∀ resp, Reply first = inl resp →
       served w' = served w + 1
       ∧ RetryCount (conn w') = RetryCount (conn w)).
Proof.
  intros req first second w'. subst w'.
  rewrite roundTrip_unfold. fold req first second. split_and!.
  - destruct (Reply first); [cbn; lia |].
    destruct (Reply second); cbn; lia.
  - intros e resp -> ->. cbn. split_and!; [lia | done |].
    intros Hrange. apply Z.mod_small. lia.
  - intros resp ->. cbn. split; [lia | done].
Qed.

Lemma roundTrip_retry_count_witness :
  let w' := (roundTrip stale_then_ok "POST"
               (mkURL "http" "localhost:1978" "/rpc/void" "")
               identityheaders [] sample_world).1 in
  RetryCount (conn sample_world) = 7%Z
  ∧ RetryCount (conn w') = 8%Z
  ∧ served w' = 2.
Proof.
  pose proof (roundTrip_retry_count stale_then_ok "POST"
                (mkURL "http" "localhost:1978" "/rpc/void" "")
                identityheaders [] sample_world) as (_ & Hretry & _).
  destruct (Hretry (Foreign "EOF") (tsv_response 200 [] 1) eq_refl eq_refl)
    as (Hserved & _ & Hcount).
  cbv zeta. split_and!; [done | | done].
  rewrite Hcount; [done |]. by vm_compute.
Defined.

(** C8. When the timer of the deciding attempt has fired by the time that
    attempt's error is known, [doRPC] and [doREST] report [ErrTimeout] and
    not the transport's error; when it has fired by the time the body has
    been read to the end, they report [ErrTimeout] and not a success
    ([doREST] still hands back the status code and the bytes read, next
    to the error). *)
Theorem timeout_takes_precedence (transport : Transport)
    (QueryEscape : string → string) (w : World) :
  (∀ path values body enc,
     TSVEncode values = Ret (body, enc) →
     let f := final transport w (rpc_request (conn w) path body enc) in
     (∀ e, Reply (final_attempt f) = inr e →
        fired (final_timer f) (final_clock f) →
        (doRPC transport path values w).2 = Ret (0%Z, [], Some ErrTimeout))
     ∧ (∀ resp, Reply (final_attempt f) = inl resp →
          fired (final_timer f) (final_clock f + BodyTime resp) →
          (doRPC transport path values w).2
          = Ret (0%Z, [], Some ErrTimeout)))
  ∧ (∀ op key val,
       let f := final transport w
                  (rest_request QueryEscape (conn w) op key val) in
       (∀ e, Reply (final_attempt f) = inr e →
          fired (final_timer f) (final_clock f) →
          (doREST transport QueryEscape op key val w).2
          = Ret (0%Z, [], Some ErrTimeout))
       ∧ (∀ resp, Reply (final_attempt f) = inl resp →
            fired (final_timer f) (final_clock f + BodyTime resp) →
            (doREST transport QueryEscape op key val w).2
            = Ret (StatusCode resp, Body resp, Some ErrTimeout))).
Proof.
  split.
  - intros path values body enc Henc f.
    rewrite (doRPC_unfold _ _ _ _ _ _ Henc).
    destruct (roundTrip_final transport "POST"
                (mkURL (scheme (conn w)) (host (conn w)) path "")
                (headers_for enc) body w) as (w' & -> & Hclock).
    fold (rpc_request (conn w) path body enc). fold f. split.
    + intros e -> Hfired. by rewrite not_stopped_when_fired.
    + intros resp -> Hfired. cbn [clock]. rewrite Hclock.
      by rewrite not_stopped_when_fired.
  - intros op key val f. rewrite doREST_unfold.
    destruct (roundTrip_final transport op
                (mkURL (scheme (conn w)) (host (conn w)) ""
                   ("/" ++ QueryEscape key))
                emptyHeader val w) as (w' & -> & Hclock).
    fold (rest_request QueryEscape (conn w) op key val). fold f. split.
    + intros e -> Hfired. by rewrite not_stopped_when_fired.
    + intros resp -> Hfired. cbn [clock snd]. rewrite Hclock.
      by rewrite not_stopped_when_fired.
Qed.

Lemma timeout_takes_precedence_witness :
  (doRPC always_late "/rpc/status" [] sample_world).2
  = Ret (0%Z, [], Some ErrTimeout)
  ∧ (doREST slow_body (λ s, s) "GET" "a" [] sample_world).2
    = Ret (200%Z, [x61; x09; x62; x0a], Some ErrTimeout).
Proof.
  pose proof (timeout_takes_precedence always_late (λ s, s) sample_world)
    as [Hrpc _].
  pose proof (timeout_takes_precedence slow_body (λ s, s) sample_world)
    as [_ Hrest].
  split.
  - destruct (Hrpc "/rpc/status" [] [] IdentityEnc eq_refl) as [Herr _].
    apply (Herr (Foreign "net/http: request canceled")); [done |].
    by vm_compute.
  - destruct (Hrest "GET" "a" []) as [_ Hbody].
    apply (Hbody (tsv_response 200 [x61; x09; x62; x0a] 200)); [done |].
    by vm_compute.
Defined.

(** ** Response records *)

Lemma string_at_0_cons (a : ascii) (s : string) :
  string_at (String a s) 0 = Ret (byte_of_ascii a).
Proof.
  unfold string_at. rewrite decide_True by (cbn [String.length]; lia). done.
Qed.

Lemma string_at_0_empty : string_at "" 0 = Panic index_out_of_range.
Proof. reflexivity. Qed.

Lemma underscore_ascii (a : ascii) :
  byte_eqb (byte_of_ascii a) UNDERSCORE = true ↔ a = "_"%char.
Proof.
  rewrite byte_eqb_eq. split.
  - intros Ha. rewrite <- (ascii_of_byte_of_ascii a), Ha. done.
  - by intros ->.
Qed.

Lemma underscored_iff (s : string) :
  underscored s = true ↔ s = String "_" (string_tail s).
Proof.
  destruct s as [| a s]; cbn; [done |].
  rewrite underscore_ascii. split; [by intros -> | by intros [= ->]].
Qed.

(** Every value [DecodeValues] returns is a non-nil slice. *)
Lemma decodeLoop_values (decodef : decodefunc) (fuel : nat) :
  ∀ b result m,
    Forall (λ kv, is_Some (Value kv)) result →
    decodeLoop decodef fuel b result = Ret m →
    Forall (λ kv, is_Some (Value kv)) m.
Proof.
  induction fuel as [| fuel IH]; intros b result m Hresult; [done |].
  cbn [decodeLoop].
  destruct (ReadBytes TAB b) as [[key eof] b1].
  destruct eof; [by intros [= <-] |].
  destruct (decodef _) as [key' | msg]; cbn [mbind outcome_bind obind];
    [| done].
  destruct (ReadBytes LF b1) as [[value eof] b2].
  case_decide; cbn [mbind outcome_bind obind].
  - destruct (decodef _) as [value' | msg]; cbn [mbind outcome_bind obind];
      [| done].
    assert (Forall (λ kv, is_Some (Value kv))
              (result ++ [mkKV (string_of_bytes key') (Some value')])).
    { apply Forall_app. split; [done |]. repeat constructor. by eexists. }
    destruct eof; [by intros [= <-] | by apply IH].
  - destruct eof; [by intros [= <-] | by apply IH].
Qed.

Lemma DecodeValues_values (buf : list byte) (contenttype : string)
    (m : list KV) (e : error) :
  DecodeValues buf contenttype = Ret (m, e) →
  Forall (λ kv, is_Some (Value kv)) m.
Proof.
  assert (∀ decodef, decode_fields decodef buf = Ret (m, e) →
            Forall (λ kv, is_Some (Value kv)) m) as Hrun.
  { intros decodef. unfold decode_fields.
    destruct (decodeLoop _ _ _ _) as [m' | msg] eqn:Hloop; [| done].
    intros [= <- _]. by eapply decodeLoop_values. }
  destruct buf as [| b0 buf]; [by intros [= <- _] |].
  destruct contenttype as [| a s]; [done |].
  destruct (final_char_nonempty (String a s)) as [c Hc]; [done |].
  rewrite (DecodeValues_nonempty _ _ c) by done.
  repeat case_match; try apply Hrun. by intros [= <- _].
Qed.

Lemma doRPC_values (transport : Transport) (path : string)
    (values : list KV) (w w' : World) (code : Z) (m : list KV) :
  doRPC transport path values w = (w', Ret (code, m, None)) →
  Forall (λ kv, is_Some (Value kv)) m.
Proof.
  rewrite (doRPC_unfold transport path values w _ _ (TSVEncode_spec values)).
  destruct (roundTrip _ _ _ _ _ w) as [w1 [[[resp t] | e] | msg]]; try done.
  cbv zeta. destruct (bool_decide _); [| done].
  destruct (BodyErr resp); [done |].
  destruct (DecodeValues _ _) as [[m' [e |]] | msg] eqn:Hdecode; try done.
  intros [= _ _ <-]. by eapply DecodeValues_values.
Qed.

(** ** The loops over the response *)

Lemma fill_step_spec (keys : gmap string slice) (kv : KV) :
  Key kv ≠ "" →
  ∃ keys', fill_step (make_map keys) kv = Ret (make_map keys')
    ∧ ∀ k, keys' !! k
           = if decide (Key kv = String "_" k) then Some (Value kv)
             else keys !! k.
Proof.
  intros Hkey. unfold fill_step.
  destruct (Key kv) as [| a rest] eqn:HK; [done |].
  rewrite string_at_0_cons.
  cbn [mbind outcome_bind obind string_tail map_assign].
  destruct (byte_eqb _ _) eqn:Ha; cbn [negb].
  - apply underscore_ascii in Ha as ->. eexists. split; [done |].
    intros k. rewrite lookup_insert.
    repeat case_decide; congruence.
  - eexists. split; [done |]. intros k.
    rewrite decide_False; [done |]. intros [= -> _].
    by rewrite byte_eqb_refl in Ha.
Qed.

Lemma fmap_make_map {A B} (f : A → B) (m : gmap string A) :
  f <$> make_map m = make_map (f <$> m).
Proof. reflexivity. Qed.


Lemma fill_step_nil (kv : KV) (keys' : gomap slice) :
  fill_step nil_map kv = Ret keys' → keys' = nil_map.
Proof.
  unfold fill_step. destruct (string_at _ _); cbn; [| done].
  destruct (negb _); [by intros [= <-] | done].
Qed.

Lemma echoed_cons (kv : KV) (m : list KV) (k : string) :
  echoed (kv :: m) k
  = match echoed m k with
    | Some v => Some v
    | None => if decide (Key kv = String "_" k) then Some (Value kv) else None
    end.
Proof.
  unfold echoed. rewrite filter_cons.
  case_decide; [| by destruct (last _)].
  rewrite last_cons. by destruct (last _).
Qed.

Lemma fill_loop_spec (m : list KV) :
  Forall (λ kv, Key kv ≠ "") m →
  ∀ keys, ∃ keys', foldM fill_step m (make_map keys) = Ret (make_map keys')
    ∧ ∀ k, keys' !! k
           = match echoed m k with
             | Some v => Some v
             | None => keys !! k
             end.
Proof.
  induction 1 as [| kv m Hkv _ IH]; intros keys.
  - exists keys. done.
  - destruct (fill_step_spec keys kv Hkv) as (keys1 & Hstep & Hkeys1).
    destruct (IH keys1) as (keys' & Hloop & Hkeys').
    exists keys'. cbn [foldM]. rewrite Hstep. split; [done |].
    intros k. rewrite Hkeys', Hkeys1, echoed_cons.
    destruct (echoed m k); [done | by case_decide].
Qed.





Lemma fill_step_nil_spec (kv : KV) :
  Key kv ≠ "" →
  fill_step nil_map kv
  = if underscored (Key kv) then Panic nil_map_assignment else Ret nil_map.
Proof.
  intros Hkv. unfold fill_step. destruct (Key kv) as [| a rest]; [done |].
  rewrite string_at_0_cons. cbn [mbind outcome_bind obind underscored].
  by destruct (byte_eqb _ _).
Qed.

(** On a nil map the loop passes the records that are not echoes and
    panics on the first that is one. *)
Lemma fill_loop_nil (m : list KV) :
  Forall (λ kv, Key kv ≠ "") m →
  foldM fill_step m nil_map
  = if existsb (λ kv, underscored (Key kv)) m
    then Panic nil_map_assignment else Ret nil_map.
Proof.
  induction 1 as [| kv m Hkv _ IH]; cbn [foldM existsb]; [done |].
  rewrite (fill_step_nil_spec kv Hkv).
  destruct (underscored _); cbn [mbind outcome_bind obind orb];
    [done | exact IH].
Qed.

Lemma match_step_spec (res : list string) (kv : KV) :
  Key kv ≠ "" →
  match_step res kv
  = Ret (res ++ if underscored (Key kv) then [string_tail (Key kv)] else []).
Proof.
  intros Hkey. unfold match_step.
  destruct (Key kv) as [| a rest]; [done |].
  rewrite string_at_0_cons. cbn [mbind outcome_bind obind underscored].
  destruct (byte_eqb _ _); [done | by rewrite app_nil_r].
Qed.

Lemma match_loop_spec (m : list KV) :
  Forall (λ kv, Key kv ≠ "") m →
  ∀ res, foldM match_step m res = Ret (res ++ matched m).
Proof.
  unfold matched.
  induction 1 as [| kv m Hkv _ IH]; intros res; cbn [foldM].
  - by rewrite app_nil_r.
  - rewrite match_step_spec by done. cbn [mbind outcome_bind obind].
    rewrite IH, filter_cons, <- app_assoc.
    destruct (underscored (Key kv)).
    + by rewrite decide_True by done.
    + by rewrite decide_False by (by intros []).
Qed.


(** ** Bulk get and prefix match after a response with status 200 *)

Section Status200.

Variable transport : Transport.
Variables (w w' : World) (m : list KV).

Lemma echoed_is_Some (k : string) (v : slice) :
  Forall (λ kv, is_Some (Value kv)) m → echoed m k = Some v → is_Some v.
Proof.
  intros Hm. unfold echoed.
  destruct (last _) as [kv |] eqn:Hlast; [| done].
  intros [= <-]. rewrite Forall_forall in Hm. apply Hm.
  by apply last_Some_elem_of, list_elem_of_filter in Hlast as [_ Hin].
Qed.

Lemma doGetBulkBytes_ok (keys : gmap string slice) :
  doRPC transport "/rpc/get_bulk" (bulk_keys (make_map keys)) w
  = (w', Ret (200%Z, m, None)) →
  Forall (λ kv, Key kv ≠ "") m →
  ∃ result,
    doGetBulkBytes transport (make_map keys) w
    = (w', Ret (make_map result, None))
    ∧ ∀ k, result !! k = echoed m k.
Proof.
  intros Hrpc Hkeys.
  pose proof (doRPC_values _ _ _ _ _ _ _ Hrpc) as Hvalues.
  destruct (fill_loop_spec m Hkeys ((λ _, None) <$> keys))
    as (keys' & Hloop & Hkeys').
  eexists. split.
  - unfold doGetBulkBytes. cbv [mbind mret io_bind io_ret lift].
    rewrite Hrpc. cbn [Z.eqb Pos.eqb negb].
    rewrite fmap_make_map. unfold slice in *. by rewrite Hloop.
  - intros k. apply option_eq. intros v.
    rewrite map_lookup_filter_Some, Hkeys'. cbn [snd].
    pose proof (echoed_is_Some k) as Hsome.
    destruct (echoed m k) as [v' |].
    + split; [by intros [? _] |]. intros [= ->]. eauto.
    + rewrite lookup_fmap. destruct (keys !! k); cbn.
      * split; [| done]. intros [[= <-] Hv]. by destruct Hv.
      * split; [by intros [? _] | done].
Qed.


(** The loop of [doGetBulkBytes] decides the call after a response with
    status 200, for a nil map as for any other. *)
Lemma doGetBulkBytes_loop (keys : gomap slice) :
  doRPC transport "/rpc/get_bulk" (bulk_keys keys) w
  = (w', Ret (200%Z, m, None)) →
  doGetBulkBytes transport keys w
  = (w', match foldM fill_step m ((λ _, None) <$> keys) with
         | Ret keys' => Ret (drop_nil keys', None)
         | Panic msg => Panic msg
         end).
Proof.
  intros Hrpc.
  unfold doGetBulkBytes. cbv [mbind mret io_bind io_ret lift].
  rewrite Hrpc. cbn [Z.eqb Pos.eqb negb].
  by destruct (foldM _ _ _).
Qed.




Lemma GetBulk_ok (keysAndVals : gmap string string) :
  doRPC transport "/rpc/get_bulk"
    (bulk_keys (make_map ((λ _, Some zeroslice) <$> keysAndVals))) w
  = (w', Ret (200%Z, m, None)) →
  Forall (λ kv, Key kv ≠ "") m →
  ∃ result,
    GetBulk transport keysAndVals w = (w', Ret (result, None))
    ∧ ∀ k, result !! k
           = if decide (k ∈ dom keysAndVals)
             then (λ b, string_of_bytes (slice_bytes b)) <$> echoed m k
             else None.
Proof.
  intros Hrpc Hkeys.
  destruct (doGetBulkBytes_ok _ Hrpc Hkeys) as (filled & Hbulk & Hfilled).
  eexists. split.
  - unfold GetBulk. cbv [mbind mret io_bind io_ret]. by rewrite Hbulk.
  - intros k. cbn [entries]. rewrite map_lookup_imap, Hfilled.
    case_decide as Hdom.
    + apply elem_of_dom in Hdom as [v ->]. done.
    + apply not_elem_of_dom in Hdom as ->. done.
Qed.

Lemma MatchPrefix_ok (key : string) (maxrecords : Z) :
  doRPC transport "/rpc/match_prefix" (prefix_query key maxrecords) w
  = (w', Ret (200%Z, m, None)) →
  Forall (λ kv, Key kv ≠ "") m →
  MatchPrefix transport key maxrecords w
  = (w', Ret match matched m with
             | [] => (None, Some ErrSuccess)
             | res => (Some res, None)
             end).
Proof.
  intros Hrpc Hkeys.
  unfold MatchPrefix. cbv [mbind mret io_bind io_ret lift].
  rewrite Hrpc. cbn [Z.eqb Pos.eqb negb].
  rewrite match_loop_spec by done. cbn [app].
  by destruct (matched m).
Qed.



End Status200.

(** ** The operations: claims *)

(** C5 as worded fails for [doGetBulkBytes]: handed a map that holds [a]
    and answered [_b TAB x LF], it leaves the map holding [b], a key that
    was not requested. *)
Lemma bulk_get_claim_fails :
  ¬ bulk_get_claim (answers echo_b) {["a" := None]} sample_world.
Proof.
  intros Hclaim.
  assert (doRPC (answers echo_b) "/rpc/get_bulk"
            (bulk_keys (make_map {["a" := None]})) sample_world
          = (mkWorld sample_conn 6 1,
             Ret (200%Z, [mkKV "_b" (Some [x78])], None))) as Hrpc
    by by vm_compute.
  destruct (Hclaim _ _ Hrpc) as (result & Hresult & Hlookup).
  destruct (doGetBulkBytes_ok _ _ _ _ _ Hrpc) as (result' & Hresult' & Hecho).
  { repeat constructor. done. }
  rewrite Hresult in Hresult'. injection Hresult' as <-.
  specialize (Hlookup "b"). rewrite Hecho in Hlookup.
  rewrite decide_False in Hlookup by set_solver.
  by vm_compute in Hlookup.
Qed.

(** C5, amended. After a response with status 200 whose records all have
    a non-empty key, a map that is not nil is left by [GetBulkBytes]
    holding exactly the keys that the response echoes with a [_] prefix,
    requested or not, each bound to the value of the last record echoing
    it, which is never nil; the map [GetBulk] leaves holds exactly those
    of them that were requested. A requested key that is not echoed is
    gone from either map. *)
Theorem bulk_get_echoed (transport : Transport) (w w' : World)
    (m : list KV) :
  Forall (λ kv, Key kv ≠ "") m →
  (∀ keys : gmap string slice,
     doRPC transport "/rpc/get_bulk" (bulk_keys (make_map keys)) w
     = (w', Ret (200%Z, m, None)) →
     ∃ result,
       GetBulkBytes transport (make_map keys) w
       = (w', Ret (make_map result, None))
       ∧ (∀ k, result !! k = echoed m k)
       ∧ (∀ k v, result !! k = Some v → is_Some v))
  ∧ (∀ keysAndVals,
       doRPC transport "/rpc/get_bulk"
         (bulk_keys (make_map ((λ _, Some zeroslice) <$> keysAndVals))) w
       = (w', Ret (200%Z, m, None)) →
       ∃ result,
         GetBulk transport keysAndVals w = (w', Ret (result, None))
         ∧ ∀ k, result !! k
                = if decide (k ∈ dom keysAndVals)
                  then (λ b, string_of_bytes (slice_bytes b)) <$> echoed m k
                  else None).
Proof.
  intros Hkeys. split.
  - intros keys Hrpc.
    destruct (doGetBulkBytes_ok _ _ _ _ _ Hrpc Hkeys)
      as (result & Hresult & Hecho).
    exists result. split_and!; [done.. |].
    intros k v. rewrite Hecho. apply echoed_is_Some.
    by eapply doRPC_values.
  - intros keysAndVals Hrpc. by apply GetBulk_ok.
Qed.

Lemma bulk_get_echoed_witness :
  (∃ result,
     GetBulk (answers echo_a_c) {["a" := ""; "b" := ""; "c" := ""]}
       sample_world
     = (mkWorld sample_conn 6 1, Ret (result, None))
     ∧ result !! "a" = Some "1"
     ∧ result !! "b" = None
     ∧ result !! "c" = Some "3")
  ∧ (∃ result,
       GetBulkBytes (answers echo_a_c)
         (make_map {["a" := Some [x30]; "b" := None]}) sample_world
       = (mkWorld sample_conn 6 1, Ret (make_map result, None))
       ∧ result !! "a" = Some (Some [x31])
       ∧ result !! "b" = None
       ∧ result !! "c" = Some (Some [x33])).
Proof.
  pose proof (bulk_get_echoed (answers echo_a_c) sample_world
                (mkWorld sample_conn 6 1)
                [mkKV "_a" (Some [x31]); mkKV "_c" (Some [x33])])
    as Hbulk.
  destruct Hbulk as [Hbytes Hget]; [by repeat constructor |].
  split.
  - destruct (Hget {["a" := ""; "b" := ""; "c" := ""]})
      as (result & -> & Hecho); [by vm_compute |].
    exists result. split; [done |].
    rewrite !Hecho. by vm_compute.
  - destruct (Hbytes {["a" := Some [x30]; "b" := None]})
      as (result & -> & Hecho & _); [by vm_compute |].
    exists result. split; [done |].
    rewrite !Hecho. by vm_compute.
Defined.

(** C6, at a response whose only record has an empty key. The call is
    answered with status 200, no record has a [_]-prefixed key, and
    [MatchPrefix] panics on [kv.Key[0]] instead of returning
    [ErrSuccess]. *)
Theorem MatchPrefix_empty_key_panics :
  doRPC (answers empty_key_body) "/rpc/match_prefix" (prefix_query "p" 10)
    sample_world
  = (mkWorld sample_conn 6 1, Ret (200%Z, [mkKV "" (Some [x76])], None))
  ∧ matched [mkKV "" (Some [x76])] = []
  ∧ MatchPrefix (answers empty_key_body) "p" 10 sample_world
    = (mkWorld sample_conn 6 1, Panic index_out_of_range).
Proof. by vm_compute. Qed.



(** * Further properties *)

(** ** Calls in terms of the deciding attempt *)

Section Deciding.

Variable transport : Transport.
Variable QueryEscape : string → string.

Lemma roundTrip_conn (method : string) (url : URL) (headers : Header)
    (body : list byte) (w : World) :
  conn (roundTrip transport method url headers body w).1
  = conn_after transport w (mkRequest method url headers body).
Proof.
  rewrite roundTrip_unfold. unfold conn_after.
  destruct (Reply (transport (served w) _)); [done |].
  by destruct (Reply (transport (S (served w)) _)).
Qed.

Lemma doREST_final (op key : string) (val : list byte) (w : World) :
  let req := rest_request QueryEscape (conn w) op key val in
  ∃ w', doREST transport QueryEscape op key val w
        = (w', Ret (rest_result (final transport w req)))
        ∧ conn w' = conn_after transport w req.
Proof.
  cbv zeta. unfold rest_request. rewrite doREST_unfold.
  set (url := mkURL _ _ _ _).
  pose proof (roundTrip_conn op url emptyHeader val w) as Hconn.
  destruct (roundTrip_final transport op url emptyHeader val w)
    as (w1 & Hrt & Hclock).
  rewrite Hrt in Hconn |- *. cbn [fst] in Hconn.
  unfold rest_result, in_time.
  destruct (Reply (final_attempt _)) as [resp | e].
  - eexists. split.
    + cbn [clock]. by rewrite Hclock.
    + exact Hconn.
  - eexists. split; [done | exact Hconn].
Qed.

Lemma doRPC_final (path : string) (values : list KV) (w : World)
    (body : list byte) (enc : Encoding) :
  TSVEncode values = Ret (body, enc) →
  let req := rpc_request (conn w) path body enc in
  ∃ w', doRPC transport path values w
        = (w', rpc_result (final transport w req))
        ∧ conn w' = conn_after transport w req.
Proof.
  intros Henc. cbv zeta. unfold rpc_request.
  rewrite (doRPC_unfold _ _ _ _ _ _ Henc).
  set (url := mkURL _ _ _ _).
  pose proof (roundTrip_conn "POST" url (headers_for enc) body w) as Hconn.
  destruct (roundTrip_final transport "POST" url (headers_for enc) body w)
    as (w1 & Hrt & Hclock).
  rewrite Hrt in Hconn |- *. cbn [fst] in Hconn.
  unfold rpc_result, in_time.
  destruct (Reply (final_attempt _)) as [resp | e].
  - cbn [clock]. rewrite Hclock.
    destruct (bool_decide _); [| eexists; split; [done | exact Hconn]].
    destruct (BodyErr resp); [eexists; split; [done | exact Hconn] |].
    destruct (DecodeValues _ _) as [[m [e |]] | msg];
      eexists; (split; [done | exact Hconn]).
  - eexists. split; [done | exact Hconn].
Qed.

End Deciding.

Lemma in_time_not_fired (f : Final) (now : Z) :
  ¬ fired (final_timer f) now → in_time f now = true.
Proof. unfold fired, in_time. intros Hnot. apply bool_decide_eq_true. lia. Qed.

(** ** The RESTful operations *)

Section SingleKeyFacts.

Variable transport : Transport.
Variable QueryEscape : string → string.
Variables (key : string) (w : World).

Lemma doREST_answered (op : string) (val : list byte) (resp : Response) :
  answered transport QueryEscape key w op val resp →
  ∃ w', doREST transport QueryEscape op key val w
        = (w', Ret (StatusCode resp, Body resp, None)).
Proof.
  intros (Hreply & Hfired & Herr).
  destruct (doREST_final transport QueryEscape op key val w)
    as (w' & -> & _).
  exists w'. unfold rest_result. rewrite Hreply.
  by rewrite in_time_not_fired, Herr.
Qed.

Lemma doREST_error (op : string) (val : list byte) :
  ∃ w', doREST transport QueryEscape op key val w
        = (w', Ret (rest_result
                      (final transport w
                         (rest_request QueryEscape (conn w) op key val)))).
Proof.
  destruct (doREST_final transport QueryEscape op key val w)
    as (w' & -> & _). by exists w'.
Qed.

End SingleKeyFacts.

(** X1. [Get] and [GetBytes], once the response has been read in time:
    status 200 gives the body, exactly as it was received; status 404
    gives [ErrNotFound]; any other status gives an [Error] carrying the
    body as its message and the status as its code. *)
Theorem Get_status (transport : Transport) (QueryEscape : string → string)
    (key : string) (w : World) (resp : Response) :
  answered transport QueryEscape key w "GET" [] resp →
  (StatusCode resp = 200%Z →
     (Get transport QueryEscape key w).2
     = Ret (string_of_bytes (Body resp), None)
     ∧ (GetBytes transport QueryEscape key w).2
       = Ret (Some (Body resp), None))
  ∧ (StatusCode resp = 404%Z →
       (Get transport QueryEscape key w).2
       = Ret (EmptyString, Some ErrNotFound)
       ∧ (GetBytes transport QueryEscape key w).2
         = Ret (None, Some ErrNotFound))
  ∧ (StatusCode resp ≠ 200%Z → StatusCode resp ≠ 404%Z →
       let e := NewError (mkError (string_of_bytes (Body resp))
                            (StatusCode resp)) in
       (Get transport QueryEscape key w).2 = Ret (EmptyString, Some e)
       ∧ (GetBytes transport QueryEscape key w).2 = Ret (None, Some e)).
Proof.
  intros Hanswered.
  destruct (doREST_answered _ _ _ _ _ _ _ Hanswered) as (w' & Hrest).
  unfold Get, GetBytes, doGet. cbv [mbind mret io_bind io_ret].
  rewrite Hrest. split_and!.
  - by intros ->.
  - by intros ->.
  - intros H200 H404. apply Z.eqb_neq in H200, H404.
    by rewrite H200, H404.
Qed.

Lemma Get_status_witness :
  (Get (responds 200 [x76; x31]) (λ s, s) "k" sample_world).2
  = Ret ("v1"%string, None)
  ∧ (Get (responds 404 []) (λ s, s) "k" sample_world).2
    = Ret (EmptyString, Some ErrNotFound)
  ∧ (GetBytes (responds 500 [x6f; x6f; x70; x73]) (λ s, s) "k"
       sample_world).2
    = Ret (None, Some (NewError (mkError "oops" 500))).
Proof.
  split_and!.
  - apply (Get_status (responds 200 [x76; x31]) (λ s, s) "k" sample_world
             (tsv_response 200 [x76; x31] 1)); [| done].
    split_and!; [done | by vm_compute | done].
  - apply (Get_status (responds 404 []) (λ s, s) "k" sample_world
             (tsv_response 404 [] 1)); [| done].
    split_and!; [done | by vm_compute | done].
  - apply (Get_status (responds 500 [x6f; x6f; x70; x73]) (λ s, s) "k"
             sample_world (tsv_response 500 [x6f; x6f; x70; x73] 1));
      [| done | done].
    split_and!; [done | by vm_compute | done].
Defined.

(** X2. [set], once the response has been read in time: status 201 is
    success, any other status (200 included) is an [Error] carrying the
    body and the status. *)
Theorem set_status (transport : Transport) (QueryEscape : string → string)
    (key : string) (value : list byte) (w : World) (resp : Response) :
  answered transport QueryEscape key w "PUT" value resp →
  (StatusCode resp = 201%Z →
     (set transport QueryEscape key value w).2 = Ret None)
  ∧ (StatusCode resp ≠ 201%Z →
       (set transport QueryEscape key value w).2
       = Ret (Some (NewError (mkError (string_of_bytes (Body resp))
                                (StatusCode resp))))).
Proof.
  intros Hanswered.
  destruct (doREST_answered _ _ _ _ _ _ _ Hanswered) as (w' & Hrest).
  unfold set. cbv [mbind mret io_bind io_ret].
  rewrite Hrest. split.
  - by intros ->.
  - intros H201. apply Z.eqb_neq in H201. by rewrite H201.
Qed.

Lemma set_status_witness :
  (set (responds 201 []) (λ s, s) "k" [x76] sample_world).2 = Ret None
  ∧ (set (responds 200 []) (λ s, s) "k" [x76] sample_world).2
    = Ret (Some (NewError (mkError EmptyString 200))).
Proof.
  split.
  - apply (set_status (responds 201 []) (λ s, s) "k" [x76] sample_world
             (tsv_response 201 [] 1)); [| done].
    split_and!; [done | by vm_compute | done].
  - apply (set_status (responds 200 []) (λ s, s) "k" [x76] sample_world
             (tsv_response 200 [] 1)); [| done].
    split_and!; [done | by vm_compute | done].
Defined.

(** X3. [remove], once the response has been read in time: status 204 is
    success, status 404 is [ErrNotFound], any other status is an [Error]
    carrying the body and the status. *)
Theorem remove_status (transport : Transport)
    (QueryEscape : string → string) (key : string) (w : World)
    (resp : Response) :
  answered transport QueryEscape key w "DELETE" [] resp →
  (StatusCode resp = 204%Z →
     (remove transport QueryEscape key w).2 = Ret None)
  ∧ (StatusCode resp = 404%Z →
       (remove transport QueryEscape key w).2 = Ret (Some ErrNotFound))
  ∧ (StatusCode resp ≠ 204%Z → StatusCode resp ≠ 404%Z →
       (remove transport QueryEscape key w).2
       = Ret (Some (NewError (mkError (string_of_bytes (Body resp))
                                (StatusCode resp))))).
Proof.
  intros Hanswered.
  destruct (doREST_answered _ _ _ _ _ _ _ Hanswered) as (w' & Hrest).
  unfold remove. cbv [mbind mret io_bind io_ret].
  rewrite Hrest. split_and!.
  - by intros ->.
  - by intros ->.
  - intros H204 H404. apply Z.eqb_neq in H204, H404.
    by rewrite H204, H404.
Qed.

Lemma remove_status_witness :
  (remove (responds 204 []) (λ s, s) "k" sample_world).2 = Ret None
  ∧ (remove (responds 404 []) (λ s, s) "k" sample_world).2
    = Ret (Some ErrNotFound).
Proof.
  split.
  - apply (remove_status (responds 204 []) (λ s, s) "k" sample_world
             (tsv_response 204 [] 1)); [| done].
    split_and!; [done | by vm_compute | done].
  - apply (remove_status (responds 404 []) (λ s, s) "k" sample_world
             (tsv_response 404 [] 1)); [| done].
    split_and!; [done | by vm_compute | done].
Defined.

(** X4. A failed REST call decides the single-key operations whatever the
    status code: when [doREST] reports an error (the transport's, a read
    error or [ErrTimeout]), [Get] returns the empty string, [GetBytes] a
    nil slice, and all four return that error, even if the response said
    200, 201 or 204. *)
Theorem single_key_error (transport : Transport)
    (QueryEscape : string → string) (key : string) (value : list byte)
    (w : World) :
  (∀ w' code body e,
     doREST transport QueryEscape "GET" key [] w
     = (w', Ret (code, body, Some e)) →
     Get transport QueryEscape key w = (w', Ret (EmptyString, Some e))
     ∧ GetBytes transport QueryEscape key w = (w', Ret (None, Some e)))
  ∧ (∀ w' code body e,
       doREST transport QueryEscape "PUT" key value w
       = (w', Ret (code, body, Some e)) →
       set transport QueryEscape key value w = (w', Ret (Some e)))
  ∧ (∀ w' code body e,
       doREST transport QueryEscape "DELETE" key [] w
       = (w', Ret (code, body, Some e)) →
       remove transport QueryEscape key w = (w', Ret (Some e))).
Proof.
  split_and!; intros w' code body e Hrest;
    unfold Get, GetBytes, doGet, set, remove;
    cbv [mbind mret io_bind io_ret]; by rewrite Hrest.
Qed.

Lemma single_key_error_witness :
  Get slow_body (λ s, s) "k" sample_world
  = (mkWorld sample_conn 205 1, Ret (EmptyString, Some ErrTimeout)).
Proof.
  pose proof (single_key_error slow_body (λ s, s) "k" [] sample_world)
    as (Hget & _).
  by apply (Hget _ 200%Z [x61; x09; x62; x0a]).
Defined.

(** ** The RPC call *)

Lemma doRPC_answered (transport : Transport) (w : World) (path : string)
    (values : list KV) (resp : Response) :
  rpc_answered transport w path values resp →
  ∃ w', doRPC transport path values w
        = (w', '(m, e) ← DecodeValues (Body resp) (ContentType resp);
               match e with
               | Some e => Ret (0%Z, [], Some e)
               | None => Ret (StatusCode resp, m, None)
               end).
Proof.
  intros (body & enc & Henc & Hreply & Hfired & Herr).
  destruct (doRPC_final transport path values w body enc Henc)
    as (w' & -> & _).
  exists w'. unfold rpc_result. rewrite Hreply.
  by rewrite in_time_not_fired, Herr.
Qed.

(** X5. [doRPC] never returns records or a status code together with an
    error: whenever its error is not nil, the code is 0 and the list is
    empty. *)
Theorem doRPC_error_no_result (transport : Transport) (path : string)
    (values : list KV) (w w' : World) (code : Z) (m : list KV) (e : err) :
  doRPC transport path values w = (w', Ret (code, m, Some e)) →
  code = 0%Z ∧ m = [].
Proof.
  destruct (doRPC_final transport path values w _ _ (TSVEncode_spec values))
    as (w1 & -> & _).
  unfold rpc_result.
  destruct (Reply _) as [resp | e1]; [| by intros [= _ -> ->]].
  destruct (in_time _ _); [| by intros [= _ -> ->]].
  destruct (BodyErr resp); [by intros [= _ -> ->] |].
  destruct (DecodeValues _ _) as [[m' [e' |]] | msg];
    cbn [mbind outcome_bind obind]; try done.
  by intros [= _ -> ->].
Qed.

Lemma doRPC_error_no_result_witness :
  (0%Z = 0%Z ∧ @nil KV = [])
  ∧ doRPC always_late "/rpc/status" [] sample_world
    = (mkWorld (retried sample_conn) 300 2, Ret (0%Z, [], Some ErrTimeout)).
Proof.
  split; [| done].
  by apply (doRPC_error_no_result always_late "/rpc/status" [] sample_world
              (mkWorld (retried sample_conn) 300 2) 0 [] ErrTimeout).
Defined.

(** X6. An answer with an empty body is accepted whatever its content
    type, missing or unknown ones included: [doRPC] returns the status
    code, no records and no error. *)
Theorem doRPC_empty_body (transport : Transport) (w : World)
    (path : string) (values : list KV) (resp : Response) :
  rpc_answered transport w path values resp →
  Body resp = [] →
  (doRPC transport path values w).2 = Ret (StatusCode resp, [], None).
Proof.
  intros Hanswered Hbody.
  destruct (doRPC_answered _ _ _ _ _ Hanswered) as (w' & ->).
  by rewrite Hbody.
Qed.

Lemma doRPC_empty_body_witness :
  (doRPC (λ _ _, mkAttempt 5 (inl (mkResponse 200 "" [] None 1)))
     "/rpc/void" [] sample_world).2
  = Ret (200%Z, [], None).
Proof.
  apply (doRPC_empty_body _ sample_world "/rpc/void" []
           (mkResponse 200 "" [] None 1)); [| done].
  exists [], IdentityEnc. split; [done |]. cbv zeta.
  split_and!; [done | by vm_compute | done].
Defined.

(** ** Errors of the RPC operations *)

Lemma makeError_message (m : list KV) :
  makeError m = NewError (mkError (error_message m) 0).
Proof.
  unfold makeError, findRec, error_message.
  destruct (List.find _ m) as [kv |] eqn:Hfind; [| done].
  apply find_some in Hfind as [_ Hkey].
  apply String.eqb_eq in Hkey. by rewrite Hkey.
Qed.

(** X7. When the server answers an RPC operation with a status other than
    200, [Count], [setBulk], [removeBulk], [doGetBulkBytes] and
    [MatchPrefix] return an [Error] whose message is the value of the
    first [ERROR] record of the response, or "generic error" when there is
    none, and whose code is 0: the status code is not kept. *)
Theorem rpc_status_error (transport : Transport)
    (Atoi ParseInt : string → Z * error) (w w' : World) (code : Z)
    (m : list KV) :
  code ≠ 200%Z →
  let e := NewError (mkError (error_message m) 0) in
  (doRPC transport "/rpc/status" [] w = (w', Ret (code, m, None)) →
   Count transport Atoi w = (w', Ret (0%Z, Some e)))
  ∧ (∀ values,
       doRPC transport "/rpc/set_bulk" (set_records values) w
       = (w', Ret (code, m, None)) →
       setBulk transport ParseInt values w = (w', Ret (0%Z, Some e)))
  ∧ (∀ keys,
       doRPC transport "/rpc/remove_bulk" (remove_records keys) w
       = (w', Ret (code, m, None)) →
       removeBulk transport ParseInt keys w = (w', Ret (0%Z, Some e)))
  ∧ (∀ keys,
       doRPC transport "/rpc/get_bulk" (bulk_keys keys) w
       = (w', Ret (code, m, None)) →
       doGetBulkBytes transport keys w
       = (w', Ret ((λ _, None) <$> keys, Some e)))
  ∧ (∀ key maxrecords,
       doRPC transport "/rpc/match_prefix" (prefix_query key maxrecords) w
       = (w', Ret (code, m, None)) →
       MatchPrefix transport key maxrecords w = (w', Ret (None, Some e))).
Proof.
  intros Hcode e. apply Z.eqb_neq in Hcode. subst e.
  rewrite <- makeError_message.
  split_and!; intros; unfold Count, setBulk, removeBulk, doGetBulkBytes,
    MatchPrefix; cbv [mbind mret io_bind io_ret];
    match goal with H : doRPC _ _ _ _ = _ |- _ => rewrite H end;
    by rewrite Hcode.
Qed.

Lemma rpc_status_error_witness :
  removeBulk (responds 500 error_body) (λ _, (0%Z, None)) ["a"; "b"]
    sample_world
  = (mkWorld sample_conn 6 1, Ret (0%Z, Some (NewError (mkError "boom" 0)))).
Proof.
  pose proof (rpc_status_error (responds 500 error_body)
                (λ _, (0%Z, None)) (λ _, (0%Z, None)) sample_world
                (mkWorld sample_conn 6 1) 500
                [mkKV "ERROR" (Some [x62; x6f; x6f; x6d])])
    as Herror.
  destruct Herror as (_ & _ & Hremove & _); [done |].
  by apply Hremove.
Defined.

(** ** The caller's map *)

(** X8. When [doGetBulkBytes] (or [GetBulkBytes]) returns an error, the
    caller's map still holds every requested key, each bound to nil: the
    values passed in are gone. When [GetBulk] returns an error, the
    caller's map is as it was. *)
Theorem bulk_get_error_map (transport : Transport) (w w' : World) (e : err) :
  (∀ keys result,
     GetBulkBytes transport keys w = (w', Ret (result, Some e)) →
     result = (λ _, None) <$> keys)
  ∧ (∀ keysAndVals result,
       GetBulk transport keysAndVals w = (w', Ret (result, Some e)) →
       result = keysAndVals).
Proof.
  split.
  - intros keys result. unfold GetBulkBytes, doGetBulkBytes.
    cbv [mbind mret io_bind io_ret lift].
    destruct (doRPC _ _ _ _) as [w1 [[[code m] [e1 |]] | msg]]; try done.
    + by intros [= _ <- _].
    + destruct (negb _); [by intros [= _ <- _] |].
      by destruct (foldM _ _ _).
  - intros keysAndVals result. unfold GetBulk.
    cbv [mbind mret io_bind io_ret].
    destruct (doGetBulkBytes _ _ _) as [w1 [[filled [e1 |]] | msg]];
      try done.
    by intros [= _ <- _].
Qed.

Lemma bulk_get_error_map_witness :
  ∃ result,
    GetBulkBytes always_late (make_map {["a" := Some [x31]]}) sample_world
    = (mkWorld (retried sample_conn) 300 2, Ret (result, Some ErrTimeout))
    ∧ entries result !! "a" = Some None.
Proof.
  assert (GetBulkBytes always_late (make_map {["a" := Some [x31]]})
            sample_world
          = (mkWorld (retried sample_conn) 300 2,
             Ret ((λ _, None) <$> make_map {["a" := Some [x31]]},
                  Some ErrTimeout)))
    as Hrun by by vm_compute.
  eexists. split; [exact Hrun |].
  pose proof (bulk_get_error_map always_late sample_world
                (mkWorld (retried sample_conn) 300 2) ErrTimeout)
    as [Hbytes _].
  specialize (Hbytes _ _ Hrun). cbn [fmap gomap_fmap entries].
  by rewrite lookup_fmap, lookup_singleton_eq.
Defined.

(** X9. [GetBulk] never adds a key: whatever the server answers, the keys
    of the map it returns are among the keys that were passed in. *)
Theorem GetBulk_no_new_key (transport : Transport) (w w' : World)
    (keysAndVals result : gmap string string) (e : error) :
  GetBulk transport keysAndVals w = (w', Ret (result, e)) →
  dom result ⊆ dom keysAndVals.
Proof.
  unfold GetBulk. cbv [mbind mret io_bind io_ret].
  destruct (doGetBulkBytes _ _ _) as [w1 [[filled [e1 |]] | msg]]; try done.
  - by intros [= _ <- _].
  - intros [= _ <- _]. intros k. rewrite !elem_of_dom.
    rewrite map_lookup_imap. destruct (keysAndVals !! k); [eauto |].
    by intros [? ?].
Qed.

Lemma GetBulk_no_new_key_witness :
  ∃ result,
    GetBulk (answers echo_b) {["a" := "old"]} sample_world
    = (mkWorld sample_conn 6 1, Ret (result, None))
    ∧ dom result ⊆ ({["a"]} : gset string).
Proof.
  destruct (GetBulk (answers echo_b) {["a" := "old"]} sample_world)
    as [w1 [[result e] | msg]] eqn:Hrun; vm_compute in Hrun; [| done].
  injection Hrun as <- <- <-.
  eexists. split; [reflexivity |].
  pose proof (GetBulk_no_new_key (answers echo_b) sample_world
                (mkWorld sample_conn 6 1) {["a" := "old"]}) as Hdom.
  rewrite dom_singleton_L in Hdom. by eapply Hdom; vm_compute.
Defined.

(** X10. After a response with status 200 whose records all have a
    non-empty key, [MatchPrefix] returns the keys of the [_]-prefixed
    records, prefix removed, in the order of the response, and skips every
    other record; it returns [ErrSuccess] and a nil list exactly when
    there is no such record. *)
Theorem MatchPrefix_lists_keys (transport : Transport) (w w' : World)
    (m : list KV) (key : string) (maxrecords : Z) :
  doRPC transport "/rpc/match_prefix" (prefix_query key maxrecords) w
  = (w', Ret (200%Z, m, None)) →
  Forall (λ kv, Key kv ≠ "") m →
  (matched m = [] →
   MatchPrefix transport key maxrecords w
   = (w', Ret (None, Some ErrSuccess)))
  ∧ (matched m ≠ [] →
     MatchPrefix transport key maxrecords w
     = (w', Ret (Some (matched m), None))).
Proof.
  intros Hrpc Hkeys. rewrite (MatchPrefix_ok _ _ _ _ _ _ Hrpc Hkeys).
  split; [by intros -> | by destruct (matched m)].
Qed.

Lemma MatchPrefix_lists_keys_witness :
  MatchPrefix (answers (echo_a_c ++ [x6e; x09; x32; x0a])) "p" 10
    sample_world
  = (mkWorld sample_conn 6 1, Ret (Some ["a"; "c"], None)).
Proof.
  pose proof (MatchPrefix_lists_keys
                (answers (echo_a_c ++ [x6e; x09; x32; x0a])) sample_world
                (mkWorld sample_conn 6 1)
                [mkKV "_a" (Some [x31]); mkKV "_c" (Some [x33]);
                 mkKV "n" (Some [x32])] "p" 10) as Hmatch.
  destruct Hmatch as [_ Hsome]; [by vm_compute | by repeat constructor |].
  by apply Hsome.
Defined.

(** ** Retries *)

(** X11. When the first attempt fails, [roundTrip] counts a retry whether
    or not the retry succeeds, leaves the rest of the connection alone,
    and never reports the first attempt's error: a failed retry yields its
    own error or [ErrTimeout]. *)
Theorem roundTrip_first_failure (transport : Transport) (method : string)
    (url : URL) (headers : Header) (body : list byte) (w : World) (e1 : err) :
  let req := mkRequest method url headers body in
  let second := transport (S (served w)) req in
  let r := roundTrip transport method url headers body w in
  Reply (transport (served w) req) = inr e1 →
  RetryCount (conn r.1) = ((RetryCount (conn w) + 1) mod uint64_modulus)%Z
  ∧ scheme (conn r.1) = scheme (conn w)
  ∧ host (conn r.1) = host (conn w)
  ∧ timeout (conn r.1) = timeout (conn w)
  ∧ (∀ e2, Reply second = inr e2 →
       r.2 = Ret (inr e2) ∨ r.2 = Ret (inr ErrTimeout)).
Proof.
  intros req second r Hfirst. subst r.
  rewrite roundTrip_unfold. fold req second. rewrite Hfirst. cbv zeta.
  destruct (Reply second) as [resp | e2'] eqn:Hsecond.
  - by split_and!.
  - split_and!; try done. intros e2 [= <-]. cbn [snd].
    destruct (bool_decide _); auto.
Qed.

Lemma roundTrip_first_failure_witness :
  let r := roundTrip always_fails "GET" (mkURL "http" "h" "" "/k")
             emptyHeader [] sample_world in
  RetryCount (conn r.1) = 8%Z
  ∧ r.2 = Ret (inr (Foreign "connection refused")).
Proof.
  pose proof (roundTrip_first_failure always_fails "GET"
                (mkURL "http" "h" "" "/k") emptyHeader [] sample_world
                (Foreign "EOF") eq_refl) as (Hcount & _ & _ & _ & _).
  cbv zeta. split; [| done]. rewrite Hcount. by vm_compute.
Defined.

(** ** Opening a connection *)

(** X12. [NewConn] checks connectivity with one call of [/rpc/void] and
    looks only at its error: an answer with an empty body is accepted
    whatever its status code. The connection it returns uses the http
    scheme and has already counted a retry when the first attempt of the
    check failed. When the check returns an error, that error is returned
    and no connection; when the credentials of [NewConnTLS] cannot be
    loaded, their error is returned. *)
Theorem NewConn_connectivity (transport : Transport)
    (JoinHostPort : string → string → string)
    (newTLSClientConfig : string → error)
    (host : string) (port poolsize timeout now : Z) :
  let c := mkConn 0 "http" timeout (JoinHostPort host (FormatInt port)) in
  let w0 := mkWorld c now 0 in
  (∀ resp,
     rpc_answered transport w0 "/rpc/void" [] resp → Body resp = [] →
     ∃ w', NewConn transport JoinHostPort newTLSClientConfig host port
             poolsize timeout now
           = Ret (Some w', None)
           ∧ scheme (conn w') = "http"%string
           ∧ (RetryCount (conn w') = 0%Z ∨ RetryCount (conn w') = 1%Z))
  ∧ (∀ w' code m e,
       doRPC transport "/rpc/void" [] w0 = (w', Ret (code, m, Some e)) →
       NewConn transport JoinHostPort newTLSClientConfig host port poolsize
         timeout now
       = Ret (None, Some e))
  ∧ (∀ creds e,
       creds ≠ EmptyString → newTLSClientConfig creds = Some e →
       NewConnTLS transport JoinHostPort newTLSClientConfig host port
         poolsize timeout creds now
       = Ret (None, Some e)).
Proof.
  intros c w0. split_and!.
  - intros resp Hanswered Hbody.
    destruct Hanswered as (body & enc & Henc & Hreply & Hfired & Herr).
    destruct (doRPC_final transport "/rpc/void" [] w0 body enc Henc)
      as (w' & Hrpc & Hconn).
    exists w'. unfold NewConn, newConn. rewrite decide_False by (by intros ?).
    fold c w0. rewrite Hrpc. unfold rpc_result. rewrite Hreply.
    rewrite in_time_not_fired, Herr, Hbody by done. split; [done |].
    rewrite Hconn. unfold conn_after.
    destruct (Reply (transport _ _)).
    + split; [done | by left].
    + split; [done | right]. by vm_compute.
  - intros w' code m e Hrpc. unfold NewConn, newConn.
    rewrite decide_False by (by intros ?). fold c w0. by rewrite Hrpc.
  - intros creds e Hcreds Htls. unfold NewConnTLS, newConn.
    by rewrite decide_True, Htls.
Qed.

Lemma NewConn_connectivity_witness :
  ∃ w', NewConn (responds 500 []) (λ h p, h +:+ ":" +:+ p) (λ _, None)
          "localhost" 1978 4 100 0
        = Ret (Some w', None).
Proof.
  pose proof (NewConn_connectivity (responds 500 [])
                (λ h p, h +:+ ":" +:+ p) (λ _, None) "localhost" 1978 4 100 0)
    as (Hok & _ & _).
  destruct (Hok (tsv_response 500 [] 1)) as (w' & Hconn & _); [| done |].
  - exists [], IdentityEnc. split; [done |]. cbv zeta.
    split_and!; [done | by vm_compute | done].
  - by exists w'.
Defined.

(** ** More on the decoder *)

Lemma decodeLoop_safe (decodef : decodefunc) :
  (∀ b, ∃ r, decodef b = Ret r) →
  ∀ fuel b result, length b < fuel →
    ∃ m, decodeLoop decodef fuel b result = Ret m.
Proof.
  intros Hdec fuel.
  induction fuel as [| fuel IH]; intros b result Hfuel; [lia |].
  cbn [decodeLoop].
  destruct (ReadBytes TAB b) as [[key eof] b1] eqn:Hkey.
  apply ReadBytes_split in Hkey as [-> Hkeylen].
  destruct eof; [by eexists |].
  destruct (Hdec (take (length key - 1) key)) as [key' ->].
  cbn [mbind outcome_bind obind].
  destruct (ReadBytes LF b1) as [[value eof] b2] eqn:Hvalue.
  apply ReadBytes_split in Hvalue as [-> _].
  assert (length b2 < fuel) as Hb2.
  { rewrite !length_app in Hfuel. specialize (Hkeylen eq_refl). lia. }
  case_decide; cbn [mbind outcome_bind obind].
  - match goal with |- context [decodef ?x] =>
      destruct (Hdec x) as [value' ->]
    end. cbn [mbind outcome_bind obind].
    destruct eof; [by eexists | by apply IH].
  - destruct eof; [by eexists | by apply IH].
Qed.

(** X13. [DecodeValues] panics only through the content type: when the
    content type is not empty and does not end in ['U'], it returns for
    every buffer, whatever bytes the buffer holds. *)
Theorem DecodeValues_no_panic (buf : list byte) (contenttype : string)
    (c : byte) :
  final_char contenttype = Ret c → c ≠ "U"%byte →
  ∃ r, DecodeValues buf contenttype = Ret r.
Proof.
  intros Hfinal HU.
  destruct buf as [| b0 buf]; [by eexists |].
  rewrite (DecodeValues_nonempty _ _ c) by done.
  apply byte_eqb_neq in HU. rewrite HU.
  assert (∀ decodef, (∀ b, ∃ r, decodef b = Ret r) →
            ∃ r, decode_fields decodef (b0 :: buf) = Ret r) as Hrun.
  { intros decodef Hdec. unfold decode_fields.
    destruct (decodeLoop_safe decodef Hdec (S (length (b0 :: buf)))
                (b0 :: buf) [] ltac:(lia)) as [m ->].
    by eexists. }
  destruct (byte_eqb c "B"); [apply Hrun; intros b; eexists; reflexivity |].
  destruct (byte_eqb c "s"); [apply Hrun; intros b | ]; eexists; reflexivity.
Qed.

Lemma DecodeValues_no_panic_witness :
  ∃ r, DecodeValues [x25; x09; x25; x0a; x00; xff]
         "text/tab-separated-values; colenc=B" = Ret r.
Proof.
  by apply (DecodeValues_no_panic _ _ "B"%byte).
Defined.

Lemma count_byte_app (c : byte) (l1 l2 : list byte) :
  count_byte c (l1 ++ l2) = count_byte c l1 + count_byte c l2.
Proof. unfold count_byte. by rewrite filter_app, length_app. Qed.

Lemma count_byte_none (c : byte) (l : list byte) :
  Forall (λ d, d ≠ c) l → count_byte c l = 0.
Proof.
  unfold count_byte. induction 1 as [| d l Hd _ IH]; [done |].
  rewrite filter_cons_False; [done |].
  apply byte_eqb_neq in Hd. rewrite Hd. by intros [].
Qed.

Lemma count_byte_one (c : byte) : count_byte c [c] = 1.
Proof.
  unfold count_byte. rewrite filter_cons_True; [done |].
  by rewrite byte_eqb_refl.
Qed.

Lemma ReadBytes_count (delim : byte) (b line rest : list byte) :
  ReadBytes delim b = (line, false, rest) → 1 ≤ count_byte delim line.
Proof.
  revert line rest. induction b as [| c b IH]; intros line rest; cbn.
  - done.
  - destruct (byte_eqb c delim) eqn:Hc.
    + intros [= <- <-]. apply byte_eqb_eq in Hc as ->.
      by rewrite count_byte_one.
    + destruct (ReadBytes delim b) as [[line' eof'] rest'].
      intros [= <- -> <-]. specialize (IH _ _ eq_refl).
      change (c :: line') with ([c] ++ line').
      rewrite count_byte_app. lia.
Qed.

Lemma decodeLoop_count (decodef : decodefunc) (fuel : nat) :
  ∀ b result m,
    decodeLoop decodef fuel b result = Ret m →
    length m ≤ length result + count_byte TAB b
    ∧ length m ≤ length result + S (count_byte LF b).
Proof.
  induction fuel as [| fuel IH]; intros b result m; [done |].
  cbn [decodeLoop].
  destruct (ReadBytes TAB b) as [[key eof] b1] eqn:Hkey.
  destruct eof; [intros [= <-]; lia |].
  pose proof (ReadBytes_count _ _ _ _ Hkey) as Htab.
  apply ReadBytes_split in Hkey as [-> _].
  destruct (decodef _) as [key' | msg]; cbn [mbind outcome_bind obind];
    [| done].
  destruct (ReadBytes LF b1) as [[value eof] b2] eqn:Hvalue.
  assert (eof = false → 1 ≤ count_byte LF value) as Hlf.
  { intros ->. by eapply ReadBytes_count. }
  apply ReadBytes_split in Hvalue as [-> _].
  rewrite !count_byte_app.
  assert (∀ result', length result' ≤ S (length result) →
            (if eof then Ret result'
             else decodeLoop decodef fuel b2 result') = Ret m →
            length m ≤ length result
                       + (count_byte TAB key
                          + (count_byte TAB value + count_byte TAB b2))
            ∧ length m ≤ length result
                         + S (count_byte LF key
                              + (count_byte LF value + count_byte LF b2)))
    as Hrest.
  { intros result' Hlen. destruct eof.
    - intros [= <-]. lia.
    - intros Hloop. apply IH in Hloop. specialize (Hlf eq_refl). lia. }
  case_decide; cbn [mbind outcome_bind obind].
  - destruct (decodef _) as [value' | msg]; cbn [mbind outcome_bind obind];
      [| done].
    apply Hrest. rewrite length_app. cbn. lia.
  - apply Hrest. lia.
Qed.

(** X14. The records [DecodeValues] returns are at most one more than the
    newline bytes of the buffer (the one more being a last record without
    a newline), and at most as many as its tab bytes. *)
Theorem DecodeValues_record_count (buf : list byte) (contenttype : string)
    (m : list KV) (e : error) :
  DecodeValues buf contenttype = Ret (m, e) →
  length m ≤ S (count_byte LF buf) ∧ length m ≤ count_byte TAB buf.
Proof.
  assert (∀ decodef, decode_fields decodef buf = Ret (m, e) →
            length m ≤ S (count_byte LF buf)
            ∧ length m ≤ count_byte TAB buf) as Hrun.
  { intros decodef. unfold decode_fields.
    destruct (decodeLoop _ _ _ _) as [m' | msg] eqn:Hloop; [| done].
    intros [= <- _]. apply decodeLoop_count in Hloop. cbn in Hloop. lia. }
  destruct buf as [| b0 buf]; [intros [= <- _]; cbn; lia |].
  destruct contenttype as [| a s]; [done |].
  destruct (final_char_nonempty (String a s)) as [c Hc]; [done |].
  rewrite (DecodeValues_nonempty _ _ c) by done.
  repeat case_match; try apply Hrun. intros [= <- _]. cbn. lia.
Qed.

Lemma DecodeValues_record_count_witness :
  DecodeValues [x61; x09; x62; x0a; x63; x09; x64] "s"
  = Ret ([mkKV "a" (Some [x62]); mkKV "c" (Some [x64])], None)
  ∧ 2 ≤ S (count_byte LF [x61; x09; x62; x0a; x63; x09; x64]).
Proof.
  split; [done |].
  by apply (DecodeValues_record_count [x61; x09; x62; x0a; x63; x09; x64]
              "s" [mkKV "a" (Some [x62]); mkKV "c" (Some [x64])] None).
Defined.

Lemma decodeLoop_records_tail (decodef : decodefunc) (hasbinary : bool)
    (values : list KV) (tail : list byte) :
  decodes decodef hasbinary values →
  ∀ fuel result,
    decodeLoop decodef (length values + fuel)
      (records_wire hasbinary values ++ tail) result
    = decodeLoop decodef fuel tail (result ++ (decoded_record <$> values)).
Proof.
  intros Hvalues.
  induction Hvalues as [| kv values (HK & HV & HdK & HdV) _ IH];
    intros fuel result.
  - cbn. by rewrite app_nil_r.
  - cbn [length Nat.add decodeLoop]. unfold records_wire. cbn [map concat].
    unfold record_wire at 1. cbv zeta in HK, HV, HdK, HdV.
    set (K := field_wire hasbinary (bytes_of_string (Key kv))) in *.
    set (V := field_wire hasbinary (slice_bytes (Value kv))) in *.
    rewrite <- !app_assoc. cbn [app].
    rewrite ReadBytes_found by done.
    rewrite length_app, Nat.add_sub, take_app_length, HdK.
    cbn [mbind outcome_bind obind].
    rewrite ReadBytes_found by done.
    rewrite decide_True by (rewrite length_app; cbn; lia).
    rewrite ends_with_snoc, length_app, Nat.add_sub, take_app_length, HdV.
    cbn [mbind outcome_bind obind].
    fold (records_wire hasbinary values). rewrite IH.
    unfold string_of_bytes, bytes_of_string.
    rewrite string_of_list_byte_of_string.
    rewrite <- app_assoc. by destruct kv.
Qed.

(** X15. Plain TSV that ends without a newline: after the complete
    records, a last key followed by a tab and a non-empty value is still a
    record; a last key followed by a tab and nothing is dropped (while a
    record with an empty value and its newline is kept). *)
Theorem DecodeValues_last_record (values : list KV) (K V : list byte)
    (contenttype : string) :
  all_printable values →
  Forall (λ c, c ≠ TAB) K → Forall (λ c, c ≠ LF) V →
  final_char contenttype = Ret "s"%byte →
  DecodeValues (records_wire false values ++ K ++ [TAB] ++ V) contenttype
  = Ret ((decoded_record <$> values)
           ++ match V with
              | [] => []
              | _ => [mkKV (string_of_bytes K) (Some V)]
              end,
         None).
Proof.
  intros Hvalues HK HV Hfinal.
  pose proof (records_wire_count false values) as Hcount.
  set (buf := records_wire false values ++ K ++ [TAB] ++ V).
  assert (buf ≠ []) as Hbuf.
  { subst buf. intros Hnil. apply (f_equal length) in Hnil.
    rewrite !length_app in Hnil. cbn in Hnil. lia. }
  rewrite (DecodeValues_nonempty _ _ _ Hbuf Hfinal). cbn [byte_eqb Byte.eqb].
  change (byte_eqb "s" "B") with false. change (byte_eqb "s" "U") with false.
  change (byte_eqb "s" "s") with true. cbv iota.
  unfold decode_fields.
  assert (length values ≤ length buf) as Hlen
    by (subst buf; rewrite length_app; lia).
  replace (S (length buf))
    with (length values + S (length buf - length values)) by lia.
  clear Hlen. subst buf.
  rewrite (decodeLoop_records_tail identityDecode false values)
    by by apply decodes_identity.
  cbn [decodeLoop app]. rewrite ReadBytes_found by done.
  replace (length (K ++ [TAB]) - 1) with (length K)
    by (rewrite length_app; cbn; lia).
  rewrite take_app_length.
  cbn [identityDecode mbind outcome_bind obind].
  rewrite ReadBytes_eof by done.
  destruct V as [| v0 V]; [by rewrite app_nil_r |].
  rewrite decide_True by (cbn; lia).
  assert (ends_with (v0 :: V) LF = false) as ->.
  { unfold ends_with. destruct (last (v0 :: V)) as [d |] eqn:Hlast; [| done].
    apply last_Some_elem_of in Hlast. rewrite Forall_forall in HV.
    by apply byte_eqb_neq, HV. }
  by rewrite firstn_all.
Qed.

Lemma DecodeValues_last_record_witness :
  DecodeValues [x61; x09; x31; x0a; x62; x09; x32] "s"
  = Ret ([mkKV "a" (Some [x31]); mkKV "b" (Some [x32])], None)
  ∧ DecodeValues [x61; x09; x31; x0a; x62; x09] "s"
    = Ret ([mkKV "a" (Some [x31])], None).
Proof.
  split.
  - apply (DecodeValues_last_record [mkKV "a" (Some [x31])] [x62] [x32] "s");
      [| by repeat constructor.. | done].
    repeat constructor; by vm_compute.
  - apply (DecodeValues_last_record [mkKV "a" (Some [x31])] [x62] [] "s");
      [| by repeat constructor.. | done].
    repeat constructor; by vm_compute.
Defined.

(** ** Percent escapes *)

Lemma unhex_hex_digit (upper : bool) (c : byte) :
  let hi := unhex (hex_digit upper (byte_val c / 16)) in
  let lo := unhex (hex_digit upper (byte_val c mod 16)) in
  to_byte (N.lor (byte_val (to_byte (N.shiftl (byte_val hi) 4)))
             (byte_val lo)) = c.
Proof. by destruct upper, c. Qed.

Lemma urlDecode_plain_app (b rest : list byte) :
  Forall (λ c, c ≠ PERCENT) b →
  urlDecode (b ++ rest) = res ← urlDecode rest; Ret (b ++ res).
Proof.
  induction 1 as [| c b Hc _ IH]; cbn [app urlDecode].
  - by destruct (urlDecode rest).
  - apply byte_eqb_neq in Hc. rewrite Hc, IH.
    by destruct (urlDecode rest).
Qed.

(** X16. [urlDecode] inverts percent escaping: a buffer in which every
    byte is written as [%XX], with upper-case or lower-case hexadecimal
    digits, decodes to the bytes themselves. *)
Theorem urlDecode_percent_escape (upper : bool) (b : list byte) :
  urlDecode (percent_escape upper b) = Ret b.
Proof.
  unfold percent_escape. induction b as [| c b IH]; [done |].
  cbn [map concat app urlDecode].
  change (byte_eqb PERCENT PERCENT) with true. cbv iota.
  rewrite IH. cbn [mbind outcome_bind obind].
  by rewrite unhex_hex_digit.
Qed.

(** X17. [urlDecode] leaves a buffer without [%] as it is, and panics on
    an escape cut short: a [%] followed by fewer than two bytes at the end
    of the buffer is read out of range. *)
Theorem urlDecode_plain_and_truncated (b : list byte) :
  Forall (λ c, c ≠ PERCENT) b →
  urlDecode b = Ret b
  ∧ urlDecode (b ++ [PERCENT]) = Panic index_out_of_range
  ∧ ∀ c, urlDecode (b ++ [PERCENT; c]) = Panic index_out_of_range.
Proof.
  intros Hplain. split_and!.
  - rewrite <- (app_nil_r b) at 1. rewrite urlDecode_plain_app by done.
    cbn. by rewrite app_nil_r.
  - by rewrite urlDecode_plain_app.
  - intros c. by rewrite urlDecode_plain_app.
Qed.

Lemma urlDecode_plain_and_truncated_witness :
  urlDecode [x61; x62] = Ret [x61; x62]
  ∧ urlDecode [x61; x62; PERCENT; x34] = Panic index_out_of_range.
Proof.
  destruct (urlDecode_plain_and_truncated [x61; x62]) as (Hplain & _ & Hcut).
  - by repeat constructor.
  - split; [exact Hplain | exact (Hcut x34)].
Defined.

(** X18. What [urlDecode] returns is never longer than its input: the
    decoded bytes fit in the slice they are written over. *)
Theorem urlDecode_length (b res : list byte) :
  urlDecode b = Ret res → length res ≤ length b.
Proof.
  assert (∀ n b res, length b < n → urlDecode b = Ret res →
            length res ≤ length b) as Hn.
  { clear b res. induction n as [| n IH]; intros b res Hlen; [lia |].
    destruct b as [| c rest]; [by intros [= <-] |]. cbn [urlDecode].
    destruct (byte_eqb c PERCENT).
    - destruct rest as [| h1 [| h2 rest']]; try done.
      cbn in Hlen. specialize (IH rest').
      destruct (urlDecode rest') as [res' |]; cbn; [| done].
      intros [= <-]. specialize (IH res' ltac:(lia) eq_refl). cbn. lia.
    - cbn in Hlen. specialize (IH rest).
      destruct (urlDecode rest) as [res' |]; cbn; [| done].
      intros [= <-]. specialize (IH res' ltac:(lia) eq_refl). cbn. lia. }
  apply (Hn (S (length b))). lia.
Qed.

Lemma urlDecode_length_witness :
  urlDecode [x61; PERCENT; x34; x31] = Ret [x61; x41] ∧ 2 ≤ 4.
Proof.
  split; [done |].
  by apply (urlDecode_length [x61; PERCENT; x34; x31] [x61; x41]).
Defined.

(** ** More on the encoder *)

Lemma field_wire_clean (hasbinary : bool) (field : list byte) :
  (hasbinary = false → Forall printable field) →
  Forall (λ c, c ≠ TAB) (field_wire hasbinary field)
  ∧ Forall (λ c, c ≠ LF) (field_wire hasbinary field).
Proof.
  intros Hprintable. destruct hasbinary; cbn.
  - split; (eapply Forall_impl; [apply base64_facts.encoded_wire_chars |]);
      intros c Hc; by apply base64_facts.wire_char_not.
  - specialize (Hprintable eq_refl). split.
    + eapply Forall_impl; [exact Hprintable | apply printable_not_TAB].
    + eapply Forall_impl; [exact Hprintable | apply printable_not_LF].
Qed.

Lemma records_wire_delimiters (hasbinary : bool) (values : list KV) :
  (hasbinary = false → all_printable values) →
  count_byte TAB (records_wire hasbinary values) = length values
  ∧ count_byte LF (records_wire hasbinary values) = length values.
Proof.
  unfold records_wire. induction values as [| kv values IH]; [done |].
  intros Hprintable.
  assert (hasbinary = false → printable_record kv ∧ all_printable values)
    as Hcons.
  { intros Hb. specialize (Hprintable Hb). by apply Forall_cons in Hprintable. }
  destruct IH as [IHtab IHlf]; [intros Hb; by apply Hcons |].
  destruct (field_wire_clean hasbinary (bytes_of_string (Key kv)))
    as [HKtab HKlf]; [intros Hb; by apply Hcons |].
  destruct (field_wire_clean hasbinary (slice_bytes (Value kv)))
    as [HVtab HVlf]; [intros Hb; by apply Hcons |].
  cbn [map concat length]. unfold record_wire at 1 3.
  rewrite !count_byte_app, IHtab, IHlf.
  rewrite (count_byte_none TAB _ HKtab), (count_byte_none TAB _ HVtab).
  rewrite (count_byte_none LF _ HKlf), (count_byte_none LF _ HVlf).
  rewrite !count_byte_one.
  change (count_byte TAB [LF]) with 0. change (count_byte LF [TAB]) with 0.
  lia.
Qed.

(** X19. [TSVEncode] never writes out of range, and the buffer it returns
    always has the size computed for base64, whichever encoding it
    chose: the sum over the records of
    [EncodedLen(len(key)) + 1 + EncodedLen(len(value)) + 1]. *)
Theorem TSVEncode_buffer_size (values : list KV) :
  ∃ buf, TSVEncode values = Ret (buf, encoding_of values)
         ∧ length buf = reserved_total values.
Proof.
  rewrite TSVEncode_spec, encoding_of_any_binary.
  eexists. split; [done |].
  pose proof (records_wire_length (any_binary values) values).
  rewrite length_app, length_replicate. lia.
Qed.

(** X20. In the buffer [TSVEncode] returns, the only tab and newline bytes
    are the delimiters it wrote: there are exactly as many tabs, and as
    many newlines, as records. *)
Theorem TSVEncode_delimiters (values : list KV) :
  ∃ buf enc, TSVEncode values = Ret (buf, enc)
             ∧ count_byte TAB buf = length values
             ∧ count_byte LF buf = length values.
Proof.
  rewrite TSVEncode_spec. eexists _, _. split; [done |].
  destruct (records_wire_delimiters (any_binary values) values) as [Htab Hlf].
  { by intros ?%any_binary_false. }
  rewrite !count_byte_app, Htab, Hlf.
  rewrite !count_byte_none; [lia | |]; by apply Forall_replicate.
Qed.

(** ** The request of an RPC call *)



(** X22. A call changes the connection by at most one retry: after
    [doRPC] or [doREST] the connection is as it was, or as it was with one
    retry counted; its scheme, host and timeout never change. *)
Theorem call_keeps_connection (transport : Transport)
    (QueryEscape : string → string) (w : World) :
  (∀ path values,
     let c := conn (doRPC transport path values w).1 in
     c = conn w ∨ c = retried (conn w))
  ∧ (∀ op key val,
       let c := conn (doREST transport QueryEscape op key val w).1 in
       c = conn w ∨ c = retried (conn w)).
Proof.
  split.
  - intros path values.
    destruct (doRPC_final transport path values w _ _
                (TSVEncode_spec values)) as (w' & -> & Hconn).
    cbn [fst]. rewrite Hconn. unfold conn_after.
    destruct (Reply _); auto.
  - intros op key val.
    destruct (doREST_final transport QueryEscape op key val w)
      as (w' & -> & Hconn).
    cbn [fst]. rewrite Hconn. unfold conn_after.
    destruct (Reply _); auto.
Qed.


(** X23. [GetBulkBytes] on a nil map sends a request with no record.
    After a response with status 200 whose records all have a non-empty
    key it panics on the assignment of an entry of a nil map when some
    record has a [_] prefix, and otherwise returns with no error, the map
    still nil. *)
Theorem GetBulkBytes_nil_map (transport : Transport) (w w' : World)
    (m : list KV) :
  bulk_keys nil_map = []
  ∧ (doRPC transport "/rpc/get_bulk" (bulk_keys nil_map) w
     = (w', Ret (200%Z, m, None)) →
     Forall (λ kv, Key kv ≠ "") m →
     GetBulkBytes transport nil_map w
     = (w', if existsb (λ kv, underscored (Key kv)) m
            then Panic nil_map_assignment
            else Ret (nil_map, None))).
Proof.
  split; [done |]. intros Hrpc Hkeys. unfold GetBulkBytes.
  rewrite (doGetBulkBytes_loop _ _ _ _ _ Hrpc).
  change ((λ _, None) <$> nil_map) with (@nil_map slice).
  rewrite (fill_loop_nil m Hkeys). by destruct (existsb _ _).
Qed.

Lemma GetBulkBytes_nil_map_witness :
  GetBulkBytes (answers echo_b) nil_map sample_world
  = (mkWorld sample_conn 6 1, Panic nil_map_assignment)
  ∧ GetBulkBytes (answers [x62; x09; x78; x0a]) nil_map sample_world
    = (mkWorld sample_conn 6 1, Ret (nil_map, None)).
Proof.
  split.
  - destruct (GetBulkBytes_nil_map (answers echo_b) sample_world
                (mkWorld sample_conn 6 1) [mkKV "_b" (Some [x78])])
      as [_ Hrun].
    apply Hrun; [by vm_compute | by repeat constructor].
  - destruct (GetBulkBytes_nil_map (answers [x62; x09; x78; x0a])
                sample_world (mkWorld sample_conn 6 1)
                [mkKV "b" (Some [x78])])
      as [_ Hrun].
    apply Hrun; [by vm_compute | by repeat constructor].
Defined.
